(** * Speaker attribution in [app/services/transcription_service.py]

    A shallow embedding of [TranscriptionService.transcribe_audio_with_diarization]
    and of the Python runtime pieces it relies on, followed by the properties
    of the attribution engine.

    Conventions of the embedding:
    - a Python [float] is an IEEE 754 binary64 value, here Rocq's primitive
      [float] with the same operations and rounding;
    - a Python [int] is a [Z];
    - a Python [str] is a [string] whose characters are code points below 256;
    - a Python [dict] is an association list in insertion order with pairwise
      different keys;
    - a raised exception is the [Raise] case of [outcome]; [except Exception]
      is a match on it. *)

From Stdlib Require Import ZArith List String Ascii Bool Floats Lia.
From Stdlib Require Import DecimalString DecimalNat Permutation Sorted.
Import ListNotations.

Local Open Scope string_scope.
Local Open Scope list_scope.
Local Open Scope Z_scope.

(* ================================================================== *)
(** * The Python runtime used by the service *)
(* ================================================================== *)

Module Py.

(** ** Exceptions *)

(** The exceptions the body of the [try] can raise.  [Upstream] stands for
    whatever the transcription or diarization call raised, with its
    [str(e)]. *)
Inductive exn : Type :=
| IndexError
| KeyError (key : string)
| ValueError
| OverflowError
| Upstream (msg : string).

(** [str(e)].  For [KeyError] it is the [repr] of the key, written here for
    keys without quote, backslash or control characters. *)
Definition str_of_exn (e : exn) : string :=
  match e with
  | IndexError => "list index out of range"
  | KeyError k => ("'" ++ k ++ "'")%string
  | ValueError => "cannot convert float NaN to integer"
  | OverflowError => "cannot convert float infinity to integer"
  | Upstream msg => msg
  end.

Inductive outcome (A : Type) : Type :=
| Ok (a : A)
| Raise (e : exn).

Arguments Ok {A} a.
Arguments Raise {A} e.

Definition bind {A B : Type} (c : outcome A) (k : A -> outcome B) : outcome B :=
  match c with
  | Ok a => k a
  | Raise e => Raise e
  end.

Notation "x <- c ;; k" := (bind c (fun x => k))
  (at level 61, c at next level, right associativity).
Notation "' p <- c ;; k" := (bind c (fun x => let 'p := x in k))
  (at level 61, p pattern, c at next level, right associativity).

(** A [for] loop whose body can raise: the first exception leaves the loop. *)
Fixpoint for_each {A S : Type} (body : S -> A -> outcome S) (l : list A) (s : S)
  : outcome S :=
  match l with
  | [] => Ok s
  | a :: l' => s' <- body s a ;; for_each body l' s'
  end.

(** ** Floats and integers *)

(** [int(x)] on a float: truncation toward zero; NaN and the infinities
    raise. *)
Definition int_of_float (x : float) : outcome Z :=
  match Prim2SF x with
  | S754_zero _ => Ok 0
  | S754_finite s m e =>
      let a := if 0 <=? e then Z.shiftl (Z.pos m) e else Z.shiftr (Z.pos m) (- e) in
      Ok (if s then - a else a)
  | S754_infinity _ => Raise OverflowError
  | S754_nan => Raise ValueError
  end.

Definition SF_of_int (t : Z) : spec_float :=
  match t with
  | Z0 => S754_zero false
  | Z.pos p => S754_finite false p 0
  | Z.neg p => S754_finite true p 0
  end.

(** [a / b] on two ints: the correctly rounded quotient (the service only
    divides by 100). *)
Definition int_truediv (a b : Z) : float :=
  SF2Prim (SFdiv prec emax (SF_of_int a) (SF_of_int b)).

(** [range(lo, hi)]. *)
Definition range (lo hi : Z) : list Z :=
  map (fun i => lo + Z.of_nat i) (seq 0 (Z.to_nat (hi - lo))).

(** [str(n)] for a non-negative int. *)
Definition str_of_nat (n : nat) : string :=
  NilEmpty.string_of_uint (Nat.to_uint n).

(** ** Strings *)

(** [c.isspace()] for a code point below 256. *)
Definition isspace (c : ascii) : bool :=
  let n := nat_of_ascii c in
  ((9 <=? n) && (n <=? 13) || (28 <=? n) && (n <=? 32)
   || (n =? 133) || (n =? 160))%nat.

(** [c.lower()] for a code point below 256. *)
Definition lower_char (c : ascii) : ascii :=
  let n := nat_of_ascii c in
  if ((65 <=? n) && (n <=? 90)
      || (192 <=? n) && (n <=? 222) && negb (n =? 215))%nat
  then ascii_of_nat (n + 32)
  else c.

Fixpoint lower (s : string) : string :=
  match s with
  | EmptyString => EmptyString
  | String c s' => String (lower_char c) (lower s')
  end.

Fixpoint lstrip (s : string) : string :=
  match s with
  | EmptyString => EmptyString
  | String c s' => if isspace c then lstrip s' else s
  end.

(** [rstrip] drops the trailing run of whitespace: a whitespace character
    is kept only when something is kept after it. *)
Fixpoint rstrip (s : string) : string :=
  match s with
  | EmptyString => EmptyString
  | String c s' =>
      match rstrip s' with
      | EmptyString => if isspace c then EmptyString else String c EmptyString
      | r => String c r
      end
  end.

(** [s.strip()]. *)
Definition strip (s : string) : string := rstrip (lstrip s).

(** [s.split()]: the maximal runs of non-whitespace characters.  [cur] is
    the run being read, reversed. *)
Fixpoint split_aux (cur : list ascii) (s : string) : list string :=
  match s with
  | EmptyString =>
      match cur with
      | [] => []
      | _ => [string_of_list_ascii (rev cur)]
      end
  | String c s' =>
      if isspace c
      then match cur with
           | [] => split_aux [] s'
           | _ => string_of_list_ascii (rev cur) :: split_aux [] s'
           end
      else split_aux (c :: cur) s'
  end.

Definition split (s : string) : list string := split_aux [] s.

(** [s.startswith(p)]. *)
Definition startswith (s p : string) : bool := String.prefix p s.

(** [sub in s]. *)
Fixpoint contains (sub s : string) : bool :=
  String.prefix sub s ||
  match s with
  | EmptyString => false
  | String _ s' => contains sub s'
  end.

(** Truth value of a [str]. *)
Definition truthy (s : string) : bool := negb (s =? "")%string.

(** ** Lists *)

(** [l[0]]. *)
Definition first {A : Type} (l : list A) : outcome A :=
  match l with
  | [] => Raise IndexError
  | a :: _ => Ok a
  end.

(** [l[-1]]. *)
Fixpoint last {A : Type} (l : list A) : outcome A :=
  match l with
  | [] => Raise IndexError
  | [a] => Ok a
  | _ :: l' => last l'
  end.

(** [l[-2]]. *)
Fixpoint last2 {A : Type} (l : list A) : outcome A :=
  match l with
  | [] | [_] => Raise IndexError
  | [a; _] => Ok a
  | _ :: l' => last2 l'
  end.

(** ** Dictionaries *)

Section Dict.
Context {K V : Type} (eqb : K -> K -> bool).

Definition dict : Type := list (K * V).

(** [d.get(k)], as an option. *)
Fixpoint get (d : dict) (k : K) : option V :=
  match d with
  | [] => None
  | (k', v) :: d' => if eqb k' k then Some v else get d' k
  end.

(** [k in d]. *)
Definition mem (d : dict) (k : K) : bool :=
  match get d k with
  | Some _ => true
  | None => false
  end.

(** [d[k] = v]: an existing key keeps its place, a new one goes last. *)
Fixpoint set (d : dict) (k : K) (v : V) : dict :=
  match d with
  | [] => [(k, v)]
  | (k', v') :: d' =>
      if eqb k' k then (k', v) :: d' else (k', v') :: set d' k v
  end.

(** [list(d.keys())]. *)
Definition keys (d : dict) : list K := map fst d.
End Dict.

(** [d[k]] on a dict with [str] keys. *)
Definition getitem {V : Type} (d : dict (K := string) (V := V)) (k : string)
: outcome V :=
match get String.eqb d k with
| Some v => Ok v
| None => Raise (KeyError k)
end.

(** ** [collections.Counter] *)

(** [Counter(l)]: the counts, keyed in order of first occurrence. *)
Definition Counter (l : list string) : dict (K := string) (V := nat) :=
fold_left
  (fun d s =>
     match get String.eqb d s with
     | Some n => set String.eqb d s (S n)
     | None => set String.eqb d s 1%nat
     end)
  l [].

(** [max(items, key=count)]: the first item with the largest count. *)
Fixpoint max_item (best : string * nat) (l : list (string * nat)) : string * nat :=
match l with
| [] => best
| x :: l' => max_item (if (snd best <? snd x)%nat then x else best) l'
end.

(** [c.most_common(1)[0]]. *)
Definition most_common1 (c : dict (K := string) (V := nat)) : outcome (string * nat) :=
match c with
| [] => Raise IndexError
| x :: c' => Ok (max_item x c')
end.

(** ** [sorted] *)

Section Sorted.
Context {A : Type} (key : A -> float).

(** Stable insertion of [x] after everything that is not greater. *)
Fixpoint insert_sorted (x : A) (l : list A) : list A :=
  match l with
  | [] => [x]
  | y :: l' =>
      if (key x <? key y)%float then x :: l else y :: insert_sorted x l'
  end.

(** [sorted(l, key=key)].  Python's sort is stable and compares keys with
    [<] only; on keys that [<] orders as a strict weak order (floats other
    than NaN) the stable sorted arrangement is unique, so the stable
    insertion sort returns the list Python returns.  The keys the service
    sorts are never NaN: see [first_times_not_nan] and
    [float_ltb_between]. *)
Definition sorted (l : list A) : list A :=
  fold_left (fun acc x => insert_sorted x acc) l [].
End Sorted.

(** [list(enumerate(l))]. *)
Definition enumerate {A : Type} (l : list A) : list (nat * A) :=
  combine (seq 0 (List.length l)) l.

End Py.

Import Py.

(* ================================================================== *)
(** * [app/schemas/transcription.py] *)
(* ================================================================== *)

Record SpeakerSegment : Type := {
  speaker : string;
  start : float;
  end_ : float;
  text : string
}.

Record TranscriptionResponse : Type := {
  segments : list SpeakerSegment;
  full_transcript : string;
  language : option string;
  duration : float
}.

(* ================================================================== *)
(** * What the two collaborators hand to the service *)
(* ================================================================== *)

(** One item of [response_dict["segments"]], with its three keys: [start]
    and [end] after [float(...)], and [text]. *)
Record WhisperSegment : Type := {
  seg_start : float;
  seg_end : float;
  seg_text : string
}.

(** [response.model_dump()]: each of the three keys the service reads with
    [.get] may be missing, and [None] below stands for a missing key.  A
    key that is present with the value [None] is not among the inputs of
    this record: for ["segments"] the loop of line 88 would raise
    [TypeError] on it, so the statements about which failures can happen
    take a response whose segments are a list. *)
Record WhisperResponse : Type := {
  resp_segments : option (list WhisperSegment);
  resp_text : option string;
  resp_language : option string
}.

(** One item of [diarization.itertracks(yield_label=True)]. *)
Record Turn : Type := {
  turn_start : float;
  turn_end : float;
  turn_speaker : string
}.

(* ================================================================== *)
(** * [TranscriptionService.transcribe_audio_with_diarization] *)
(* ================================================================== *)

(** The value of [speaker_stats[speaker]]. *)
Record Stats : Type := {
  first_time : float;
  total_time : float
}.

Definition SpeakerStats : Type := dict (K := string) (V := Stats).
Definition SpeakerMap : Type := dict (K := float) (V := string).

Definition stats_get (d : SpeakerStats) (k : string) : option Stats :=
  get String.eqb d k.
Definition stats_set (d : SpeakerStats) (k : string) (v : Stats) : SpeakerStats :=
  set String.eqb d k v.
Definition map_get (d : SpeakerMap) (k : float) : option string :=
  get PrimFloat.eqb d k.
Definition map_set (d : SpeakerMap) (k : float) (v : string) : SpeakerMap :=
  set PrimFloat.eqb d k v.

(** [response_dict.get("segments", [])]. *)
Definition get_segments (r : WhisperResponse) : list WhisperSegment :=
  match resp_segments r with
  | Some l => l
  | None => []
  end.

(** ** First pass: speaker statistics and the time-slot map (lines 70-81) *)

(** The inner loop [for t in range(lo, hi): speaker_map[t/100] = speaker]. *)
Definition write_slots (speaker_map : SpeakerMap) (lo hi : Z) (spk : string)
  : SpeakerMap :=
  fold_left (fun m t => map_set m (int_truediv t 100) spk) (range lo hi) speaker_map.

(** The body of the loop over the diarization turns. *)
Definition turn_step (st : SpeakerMap * SpeakerStats) (tr : Turn)
  : outcome (SpeakerMap * SpeakerStats) :=
  let '(speaker_map, speaker_stats) := st in
  let spk := turn_speaker tr in
  let speaker_stats :=
    if mem String.eqb speaker_stats spk then speaker_stats
    else stats_set speaker_stats spk
           {| first_time := turn_start tr; total_time := 0%float |} in
  s <- getitem speaker_stats spk ;;
  let speaker_stats :=
    stats_set speaker_stats spk
      {| first_time := first_time s;
         total_time := (total_time s + (turn_end tr - turn_start tr))%float |} in
  lo <- int_of_float (turn_start tr * 100)%float ;;
  hi <- int_of_float (turn_end tr * 100)%float ;;
  Ok (write_slots speaker_map lo hi spk, speaker_stats).

Definition build_speaker_maps (diarization : list Turn)
  : outcome (SpeakerMap * SpeakerStats) :=
  for_each turn_step diarization ([], []).

(** ** Second pass: one speaker per transcript segment (lines 83-143) *)

(** The speakers found in the slots of [range(lo, hi)]. *)
Definition speakers_in_range (speaker_map : SpeakerMap) (lo hi : Z) : list string :=
  flat_map
    (fun t =>
       match map_get speaker_map (int_truediv t 100) with
       | Some s => [s]
       | None => []
       end)
    (range lo hi).

(** Lines 108-114. *)
Definition ends_with_hesitation (prev_text : string) : outcome bool :=
  if contains "..." prev_text then Ok true
  else if (2 <=? List.length (split prev_text))%nat then
    a <- last (split prev_text) ;;
    b <- last2 (split prev_text) ;;
    Ok (a =? b)%string
  else Ok false.

(** Lines 117-124. *)
Definition is_completion (prev_text text : string) : outcome bool :=
  h <- ends_with_hesitation prev_text ;;
  if h then
    w <- last (split prev_text) ;;
    Ok (startswith (lower text) (lower w)
        || (List.length (split text) <=? 4)%nat)
  else Ok false.

(** Lines 130-132: the first other speaker, when there is one. *)
Definition other_speaker (speaker_stats : SpeakerStats) (prev_speaker spk : string)
  : string :=
  match filter (fun s => negb (s =? prev_speaker)%string) (keys speaker_stats) with
  | [] => spk
  | s :: _ => s
  end.

(** Lines 99-134: the speaker of a segment whose slots hold
    [speakers_in_segment]. *)
Definition choose_speaker (speaker_stats : SpeakerStats)
    (prev_speaker : option string) (prev_text : string)
    (speakers_in_segment : list string) (text : string) : outcome string :=
  match speakers_in_segment with
  | _ :: _ =>
      most_common <- most_common1 (Counter speakers_in_segment) ;;
      let spk := fst most_common in
      match prev_speaker with
      | Some prev =>
          if truthy prev_text && truthy prev then
            c <- is_completion prev_text text ;;
            if c then Ok (other_speaker speaker_stats prev spk) else Ok spk
          else Ok spk
      | None => Ok spk
      end
  | [] =>
      match prev_speaker with
      | Some prev => if truthy prev then Ok prev else first (keys speaker_stats)
      | None => first (keys speaker_stats)
      end
  end.

(** The loop state: [temp_segments], [prev_speaker], [prev_text].  An entry
    of [temp_segments] is a dict with the four keys of a [SpeakerSegment],
    and is kept as one. *)
Definition ResolverState : Type := (list SpeakerSegment * option string * string)%type.

(** The body of the loop over the transcript segments. *)
Definition segment_step (speaker_map : SpeakerMap) (speaker_stats : SpeakerStats)
    (st : ResolverState) (segment : WhisperSegment) : outcome ResolverState :=
  let '(temp_segments, prev_speaker, prev_text) := st in
  let start := seg_start segment in
  let end_ := seg_end segment in
  let text := strip (seg_text segment) in
  lo <- int_of_float (start * 100)%float ;;
  hi <- int_of_float (end_ * 100)%float ;;
  let speakers_in_segment := speakers_in_range speaker_map lo hi in
  spk <- choose_speaker speaker_stats prev_speaker prev_text speakers_in_segment text ;;
  Ok (temp_segments
        ++ [{| speaker := spk; start := start; end_ := end_; text := text |}],
      Some spk, text).

Definition resolve_segments (speaker_map : SpeakerMap) (speaker_stats : SpeakerStats)
    (segs : list WhisperSegment) : outcome (list SpeakerSegment) :=
  st <- for_each (segment_step speaker_map speaker_stats) segs ([], None, "") ;;
  Ok (fst (fst st)).

(** ** Label normalization (lines 145-164) *)

Definition sorted_speakers (speaker_stats : SpeakerStats) : list (string * Stats) :=
  sorted (fun x => first_time (snd x)) speaker_stats.

(** [f"SPEAKER_{n}"]. *)
Definition speaker_label (n : nat) : string := ("SPEAKER_" ++ str_of_nat n)%string.

Definition speaker_mapping (speaker_stats : SpeakerStats)
  : dict (K := string) (V := string) :=
  fold_left
    (fun d (item : nat * (string * Stats)) =>
       let '(idx, (spk, _)) := item in
       set String.eqb d spk (speaker_label (idx + 1)))
    (enumerate (sorted_speakers speaker_stats)) [].

(** [segment["speaker"] = speaker_mapping[segment["speaker"]]]. *)
Definition relabel (mapping : dict (K := string) (V := string))
    (acc : list SpeakerSegment) (segment : SpeakerSegment)
  : outcome (list SpeakerSegment) :=
  label <- getitem mapping (speaker segment) ;;
  Ok (acc ++ [{| speaker := label; start := start segment;
                 end_ := end_ segment; text := text segment |}]).

Definition apply_mapping (mapping : dict (K := string) (V := string))
    (temp_segments : list SpeakerSegment) : outcome (list SpeakerSegment) :=
  for_each (relabel mapping) temp_segments [].

(** The whole [if self.diarization_pipeline:] branch after the pipeline
    returned [diarization]. *)
Definition diarized_segments (diarization : list Turn) (segs : list WhisperSegment)
  : outcome (list SpeakerSegment) :=
  '(speaker_map, speaker_stats) <- build_speaker_maps diarization ;;
  temp_segments <- resolve_segments speaker_map speaker_stats segs ;;
  apply_mapping (speaker_mapping speaker_stats) temp_segments.

(** ** Fallback: alternating speakers (lines 165-177) *)

Definition fallback_step (st : list SpeakerSegment * nat) (segment : WhisperSegment)
  : list SpeakerSegment * nat :=
  let '(segments, current_speaker_idx) := st in
  (segments
     ++ [{| speaker := speaker_label current_speaker_idx;
            start := seg_start segment;
            end_ := seg_end segment;
            text := strip (seg_text segment) |}],
   if (current_speaker_idx =? 1)%nat then 2%nat else 1%nat).

Definition fallback_segments (segs : list WhisperSegment) : list SpeakerSegment :=
  fst (fold_left fallback_step segs ([], 1%nat)).

(** ** The response (lines 179-198) *)

(** [segments[-1].end if segments else 0.0]. *)
Definition duration_of (segs : list SpeakerSegment) : float :=
  match List.rev segs with
  | s :: _ => end_ s
  | [] => 0%float
  end.

Definition or_default (o : option string) (d : string) : string :=
  match o with
  | Some s => s
  | None => d
  end.

(** The body of the [try].  [asr] is what opening the file and calling the
    transcription endpoint gave; [pipeline] is [None] when
    [self.diarization_pipeline] is not set, and otherwise what calling it on
    the file gives. *)
Definition try_body (asr : outcome WhisperResponse)
    (pipeline : option (outcome (list Turn))) : outcome TranscriptionResponse :=
  response_dict <- asr ;;
  segs <- match pipeline with
          | Some run =>
              diarization <- run ;;
              diarized_segments diarization (get_segments response_dict)
          | None => Ok (fallback_segments (get_segments response_dict))
          end ;;
  Ok {| segments := segs;
        full_transcript := or_default (resp_text response_dict) "";
        language := Some (or_default (resp_language response_dict) "en");
        duration := duration_of segs |}.

(** The [except Exception as e:] handler. *)
Definition error_response (e : exn) : TranscriptionResponse :=
  let msg := ("Error transcribing audio: " ++ str_of_exn e)%string in
  {| segments := [{| speaker := "ERROR"; start := 0%float; end_ := 0%float;
                     text := msg |}];
     full_transcript := msg;
     language := Some "en";
     duration := 0%float |}.

Definition transcribe_audio_with_diarization (asr : outcome WhisperResponse)
    (pipeline : option (outcome (list Turn))) : TranscriptionResponse :=
  match try_body asr pipeline with
  | Ok r => r
  | Raise e => error_response e
  end.

(* ================================================================== *)
(** * The notions the properties are stated with *)
(* ================================================================== *)

(** The fallback loop as a recursive function of the index to use next. *)
Fixpoint fallback_from (idx : nat) (segs : list WhisperSegment) : list SpeakerSegment :=
  match segs with
  | [] => []
  | g :: segs' =>
      {| speaker := speaker_label idx; start := seg_start g;
         end_ := seg_end g; text := strip (seg_text g) |}
        :: fallback_from (if (idx =? 1)%nat then 2%nat else 1%nat) segs'
  end.

(** What an output segment keeps of its transcript segment. *)
Definition payload (s : SpeakerSegment) : float * float * string :=
  (start s, end_ s, text s).

(** What the service reads of a transcript segment: its times and its
    stripped text. *)
Definition stripped_payload (g : WhisperSegment) : float * float * string :=
  (seg_start g, seg_end g, strip (seg_text g)).

(** The turns of one speaker, in the order the diarization yields them. *)
Definition turns_of (spk : string) (diarization : list Turn) : list Turn :=
  filter (fun t => (turn_speaker t =? spk)%string) diarization.

(** The sum of [end - start] over the turns, added up in that order from 0. *)
Definition speaking_time (turns : list Turn) : float :=
  fold_left (fun acc t => (acc + (turn_end t - turn_start t))%float) turns 0%float.

(** The statistics the claims describe for one speaker: none without a turn,
    otherwise the start of the first turn yielded and the speaking time. *)
Definition stats_of (spk : string) (diarization : list Turn) : option Stats :=
  match turns_of spk diarization with
  | [] => None
  | t :: _ => Some {| first_time := turn_start t;
                      total_time := speaking_time (turns_of spk diarization) |}
  end.

(** The smallest start among the turns, [None] without a turn. *)
Definition min_start (turns : list Turn) : option float :=
  match turns with
  | [] => None
  | t :: turns' =>
      Some (fold_left (fun m u => if (turn_start u <? m)%float then turn_start u else m)
              turns' (turn_start t))
  end.

(** The different speaker ids among the turns. *)
Definition distinct_speakers (diarization : list Turn) : list string :=
  nodup string_dec (map turn_speaker diarization).

(** What holds of the two maps after the turns [done]. *)
Definition maps_describe (done : list Turn) (st : SpeakerMap * SpeakerStats) : Prop :=
  (forall spk, stats_get (snd st) spk = stats_of spk done) /\
  NoDup (keys (snd st)) /\
  (forall spk, In spk (map snd (fst st)) -> In spk (keys (snd st))).

(** The previous text contains an ellipsis, or its last two words are the
    same. *)
Definition hesitant (prev_text : string) : bool :=
  contains "..." prev_text
  || match rev (split prev_text) with
     | a :: b :: _ => (a =? b)%string
     | _ => false
     end.

(** The text starts, whatever the case, with the last word of the previous
    text, or has at most four words. *)
Definition completes (prev_text text : string) : bool :=
  match rev (split prev_text) with
  | w :: _ => startswith (lower text) (lower w)
  | [] => false
  end
  || (List.length (split text) <=? 4)%nat.

(** The text is made of whitespace only. *)
Fixpoint all_space (s : string) : bool :=
  match s with
  | EmptyString => true
  | String c s' => isspace c && all_space s'
  end.

(** What holds of the resolver's state after the segments [done]. *)
Definition resolver_inv (sstats : SpeakerStats) (done : list WhisperSegment)
    (st : ResolverState) : Prop :=
  let '(temp_segments, prev_speaker, _) := st in
  map payload temp_segments = map stripped_payload done /\
  Forall (fun s => In (speaker s) (keys sstats)) temp_segments /\
  (forall p, prev_speaker = Some p -> In p (keys sstats)).

(** [out] is [temp] with every speaker replaced by its label. *)
Definition relabelled (mapping : dict (K := string) (V := string))
    (temp out : list SpeakerSegment) : Prop :=
  Forall2 (fun t o => get String.eqb mapping (speaker t) = Some (speaker o)
                      /\ payload o = payload t) temp out.

(** [x] may stand before [y]: [y] is not smaller. *)
Definition not_after {A : Type} (key : A -> float) (x y : A) : Prop :=
  (key y <? key x)%float = false.

(** The mapping as a list: the speaker at index [i] of the sorted speakers
    with the label number [i + 1]. *)
Definition label_items (speakers : list (string * Stats)) : list (string * string) :=
  map (fun item : nat * (string * Stats) =>
         (fst (snd item), speaker_label (fst item + 1)))
      (enumerate speakers).

(** [x != x], the test for NaN. *)
Definition is_nan (x : float) : bool :=
  match Prim2SF x with
  | S754_nan => true
  | _ => false
  end.

(** The times of the segment convert to integers: they are finite. *)
Definition times_convert (g : WhisperSegment) : Prop :=
  (exists lo, int_of_float (seg_start g * 100)%float = Ok lo)
  /\ (exists hi, int_of_float (seg_end g * 100)%float = Ok hi).

(* ================================================================== *)
(** * Properties *)
(* ================================================================== *)

(** ** The error monad and the loops *)

Lemma bind_Ok {A B : Type} (c : outcome A) (k : A -> outcome B) (b : B) :
  bind c k = Ok b -> exists a, c = Ok a /\ k a = Ok b.
Proof.
  destruct c as [a|e]; simpl; intros H; [eauto | discriminate].
Qed.

(** Splits a hypothesis [bind c k = Ok b] into its two steps. *)
Ltac inv_bind H :=
  let a := fresh "a" in
  let Ha := fresh "Hstep" in
  apply bind_Ok in H; destruct H as (a & Ha & H).

Lemma for_each_app {A S : Type} (body : S -> A -> outcome S) (l1 l2 : list A) (s : S) :
  for_each body (l1 ++ l2) s = (s' <- for_each body l1 s ;; for_each body l2 s').
Proof.
  revert s; induction l1 as [|a l1 IH]; intros s; simpl; [reflexivity|].
  destruct (body s a); simpl; auto.
Qed.

(** An invariant that every step keeps holds when the loop ends normally. *)
Lemma for_each_invariant {A S : Type} (body : S -> A -> outcome S) (P : S -> Prop) :
  (forall s a s', P s -> body s a = Ok s' -> P s') ->
  forall l s s', P s -> for_each body l s = Ok s' -> P s'.
Proof.
  intros Hstep l; induction l as [|a l IH]; simpl; intros s s' Hs H.
  - injection H as <-. exact Hs.
  - inv_bind H. eauto.
Qed.

(** The same with the list of the items already consumed in the invariant. *)
Lemma for_each_invariant_prefix {A S : Type} (body : S -> A -> outcome S)
    (P : list A -> S -> Prop) :
  (forall done s a s', P done s -> body s a = Ok s' -> P (done ++ [a]) s') ->
  forall l done s s', P done s -> for_each body l s = Ok s' -> P (done ++ l) s'.
Proof.
  intros Hstep l; induction l as [|a l IH]; simpl; intros done s s' Hs H.
  - injection H as <-. rewrite app_nil_r. exact Hs.
  - inv_bind H.
    replace (done ++ a :: l) with ((done ++ [a]) ++ l)
      by (rewrite <- app_assoc; reflexivity).
    eauto.
Qed.

(** ** The response *)

Lemma duration_of_snoc (l : list SpeakerSegment) (s : SpeakerSegment) :
  duration_of (l ++ [s]) = end_ s.
Proof.
  unfold duration_of. rewrite rev_app_distr. reflexivity.
Qed.

Lemma try_body_Ok asr pipeline res :
  try_body asr pipeline = Ok res ->
  exists r, asr = Ok r /\
    (match pipeline with
     | Some run => exists d, run = Ok d /\
                     diarized_segments d (get_segments r) = Ok (segments res)
     | None => segments res = fallback_segments (get_segments r)
     end) /\
    full_transcript res = or_default (resp_text r) "" /\
    language res = Some (or_default (resp_language r) "en") /\
    duration res = duration_of (segments res).
Proof.
  unfold try_body. intros H.
  inv_bind H. inv_bind H. injection H as <-. simpl.
  exists a. split; [assumption|]. split; [|auto].
  destruct pipeline as [run|].
  - inv_bind Hstep0. eauto.
  - injection Hstep0 as <-. reflexivity.
Qed.

Lemma transcribe_Ok asr pipeline res :
  try_body asr pipeline = Ok res ->
  transcribe_audio_with_diarization asr pipeline = res.
Proof.
  unfold transcribe_audio_with_diarization. intros ->. reflexivity.
Qed.

Lemma transcribe_Raise asr pipeline e :
  try_body asr pipeline = Raise e ->
  transcribe_audio_with_diarization asr pipeline = error_response e.
Proof.
  unfold transcribe_audio_with_diarization. intros ->. reflexivity.
Qed.

(** ** The fallback attributor *)

Lemma fallback_fold (segs : list WhisperSegment) (acc : list SpeakerSegment) (idx : nat) :
  fst (fold_left fallback_step segs (acc, idx)) = acc ++ fallback_from idx segs.
Proof.
  revert acc idx; induction segs as [|g segs IH]; intros acc idx; simpl.
  - now rewrite app_nil_r.
  - rewrite IH, <- app_assoc. reflexivity.
Qed.

Lemma fallback_segments_eq (segs : list WhisperSegment) :
  fallback_segments segs = fallback_from 1 segs.
Proof.
  unfold fallback_segments. now rewrite fallback_fold.
Qed.

Lemma fallback_from_payload (idx : nat) (segs : list WhisperSegment) :
  map payload (fallback_from idx segs) = map stripped_payload segs.
Proof.
  revert idx; induction segs as [|g segs IH]; intros idx; simpl; [reflexivity|].
  now rewrite IH.
Qed.


(** ** Dictionaries *)

Section DictValues.
Context {K V : Type} (eqb : K -> K -> bool).

(** A value read from a dict is one of its values, whatever the key test. *)
Lemma get_In_values (d : dict) (k : K) (v : V) :
  get eqb d k = Some v -> In v (map snd d).
Proof.
  induction d as [|[k' v'] d IH]; simpl; [discriminate|].
  destruct (eqb k' k); intros H; [injection H as <-; auto | auto].
Qed.

(** Writing adds no value but the written one. *)
Lemma set_values_incl (d : dict) (k : K) (v w : V) :
  In w (map snd (set eqb d k v)) -> w = v \/ In w (map snd d).
Proof.
  induction d as [|[k' v'] d IH]; simpl.
  - intros [H|[]]; auto.
  - destruct (eqb k' k); simpl; intros [H|H]; auto.
    destruct (IH H); auto.
Qed.
(** Writing adds no key but the written one, and never empties a dict. *)
Lemma set_keys_incl (d : dict) (k k' : K) (v : V) :
  In k' (keys (set eqb d k v)) -> k' = k \/ In k' (keys d).
Proof.
  unfold keys. induction d as [|[k0 v0] d IH]; simpl.
  - intros [H|[]]; auto.
  - destruct (eqb k0 k); simpl; intros [H|H]; auto.
    destruct (IH H); auto.
Qed.

Lemma set_not_nil (d : dict) (k : K) (v : V) : set eqb d k v <> [].
Proof.
  destruct d as [|[k0 v0] d]; simpl; [discriminate|].
  destruct (eqb k0 k); discriminate.
Qed.
End DictValues.

Section DictFacts.
Context {K V : Type} (eqb : K -> K -> bool).
Hypothesis eqb_eq : forall a b, eqb a b = true <-> a = b.

Lemma eqb_refl_true (a : K) : eqb a a = true.
Proof. now apply eqb_eq. Qed.

Lemma eqb_neq_false (a b : K) : a <> b -> eqb a b = false.
Proof.
  intros H. destruct (eqb a b) eqn:E; [|reflexivity].
  apply eqb_eq in E. contradiction.
Qed.

Lemma get_set_same (d : dict (V := V)) (k : K) (v : V) :
  get eqb (set eqb d k v) k = Some v.
Proof.
  induction d as [|[k' v'] d IH]; simpl.
  - now rewrite eqb_refl_true.
  - destruct (eqb k' k) eqn:E; simpl; rewrite E; auto.
Qed.

Lemma get_set_other (d : dict (V := V)) (k k' : K) (v : V) :
  k <> k' -> get eqb (set eqb d k v) k' = get eqb d k'.
Proof.
  intros Hne. induction d as [|[k0 v0] d IH]; simpl.
  - now rewrite eqb_neq_false.
  - destruct (eqb k0 k) eqn:E; simpl.
    + apply eqb_eq in E; subst k0. now rewrite eqb_neq_false.
    + destruct (eqb k0 k'); auto.
Qed.

Lemma get_None_iff (d : dict (V := V)) (k : K) :
  get eqb d k = None <-> ~ In k (keys d).
Proof.
  unfold keys. induction d as [|[k' v'] d IH]; simpl.
  - tauto.
  - destruct (eqb k' k) eqn:E.
    + apply eqb_eq in E. split; [discriminate | intros H; exfalso; auto].
    + rewrite IH. split.
      * intros H [H1|H1]; [|auto]. subst. rewrite eqb_refl_true in E. discriminate.
      * tauto.
Qed.

Lemma get_Some_In_keys (d : dict (V := V)) (k : K) (v : V) :
  get eqb d k = Some v -> In k (keys d).
Proof.
  intros H. destruct (in_dec (fun a b => Bool.reflect_dec _ _
    (iff_reflect _ _ (iff_sym (eqb_eq a b)))) k (keys d)) as [Hin|Hn]; [assumption|].
  apply get_None_iff in Hn. congruence.
Qed.

Lemma In_keys_get (d : dict (V := V)) (k : K) :
  In k (keys d) -> exists v, get eqb d k = Some v.
Proof.
  intros H. destruct (get eqb d k) as [v|] eqn:E; [eauto|].
  apply get_None_iff in E. contradiction.
Qed.

Lemma get_In (d : dict (V := V)) (k : K) (v : V) :
  get eqb d k = Some v -> In (k, v) d.
Proof.
  induction d as [|[k' v'] d IH]; simpl; [discriminate|].
  destruct (eqb k' k) eqn:E; intros H; [|auto].
  apply eqb_eq in E. injection H as <-. subst. auto.
Qed.

Lemma In_get_NoDup (d : dict (V := V)) (k : K) (v : V) :
  NoDup (keys d) -> In (k, v) d -> get eqb d k = Some v.
Proof.
  unfold keys. induction d as [|[k' v'] d IH]; simpl; [tauto|].
  intros Hnd [H|H].
  - injection H as -> ->. now rewrite eqb_refl_true.
  - inversion Hnd as [|? ? Hnotin Hnd']; subst.
    destruct (eqb k' k) eqn:E; [|auto].
    apply eqb_eq in E; subst k'. exfalso. apply Hnotin.
    change k with (fst (k, v)). now apply in_map.
Qed.

Lemma keys_set_present (d : dict (V := V)) (k : K) (v v0 : V) :
  get eqb d k = Some v0 -> keys (set eqb d k v) = keys d.
Proof.
  unfold keys. induction d as [|[k' v'] d IH]; simpl; [discriminate|].
  destruct (eqb k' k) eqn:E; simpl; intros H; [reflexivity|].
  now rewrite IH.
Qed.

Lemma set_absent (d : dict (V := V)) (k : K) (v : V) :
  get eqb d k = None -> set eqb d k v = d ++ [(k, v)].
Proof.
  induction d as [|[k' v'] d IH]; simpl; [reflexivity|].
  destruct (eqb k' k) eqn:E; intros H; [discriminate|].
  now rewrite IH.
Qed.

Lemma keys_set_absent (d : dict (V := V)) (k : K) (v : V) :
  get eqb d k = None -> keys (set eqb d k v) = keys d ++ [k].
Proof.
  intros H. rewrite set_absent by assumption.
  unfold keys. now rewrite map_app.
Qed.

Lemma In_keys_set (d : dict (V := V)) (k k' : K) (v : V) :
  In k' (keys d) -> In k' (keys (set eqb d k v)).
Proof.
  intros H. destruct (get eqb d k) as [v0|] eqn:E.
  - now rewrite (keys_set_present _ _ _ _ E).
  - rewrite (keys_set_absent _ _ _ E). apply in_or_app. auto.
Qed.

Lemma NoDup_keys_set (d : dict (V := V)) (k : K) (v : V) :
  NoDup (keys d) -> NoDup (keys (set eqb d k v)).
Proof.
  intros Hnd. destruct (get eqb d k) as [v0|] eqn:E.
  - now rewrite (keys_set_present _ _ _ _ E).
  - rewrite (keys_set_absent _ _ _ E).
    apply get_None_iff in E.
    apply NoDup_rev in Hnd. rewrite <- (rev_involutive (keys d ++ [k])).
    apply NoDup_rev. rewrite rev_app_distr. simpl.
    constructor; [|assumption]. now rewrite <- in_rev.
Qed.
End DictFacts.

(** The facts above at [str] keys. *)
Lemma str_eqb_eq (a b : string) : (a =? b)%string = true <-> a = b.
Proof. apply String.eqb_eq. Qed.

(** ** The first pass *)

Lemma turns_of_snoc (spk : string) (done : list Turn) (tr : Turn) :
  turns_of spk (done ++ [tr])
  = turns_of spk done ++ (if (turn_speaker tr =? spk)%string then [tr] else []).
Proof.
  unfold turns_of. rewrite filter_app. reflexivity.
Qed.

Lemma write_slots_values (m : SpeakerMap) (lo hi : Z) (spk w : string) :
  In w (map snd (write_slots m lo hi spk)) -> w = spk \/ In w (map snd m).
Proof.
  unfold write_slots. generalize (range lo hi) as l.
  intros l; revert m; induction l as [|t l IH]; intros m; simpl; [auto|].
  intros H. apply IH in H. destruct H as [H|H]; [auto|].
  apply set_values_incl in H. exact H.
Qed.

Lemma turn_step_describes (done : list Turn) (st st' : SpeakerMap * SpeakerStats)
    (tr : Turn) :
  maps_describe done st -> turn_step st tr = Ok st' ->
  maps_describe (done ++ [tr]) st'.
Proof.
  destruct st as [m sstats]. intros (Hstats & Hnd & Hval) H.
  simpl in Hstats, Hnd, Hval. unfold turn_step in H.
  set (spk0 := turn_speaker tr) in *.
  set (st1 := if mem String.eqb sstats spk0 then sstats
              else stats_set sstats spk0
                     {| first_time := turn_start tr; total_time := 0%float |}) in *.
  inv_bind H. inv_bind H. inv_bind H. injection H as <-.
  unfold maps_describe. cbn [fst snd].
  rename a into s, a0 into lo, a1 into hi.
  unfold getitem in Hstep.
  destruct (get String.eqb st1 spk0) as [s1|] eqn:Hs1; [|discriminate].
  injection Hstep as ->.
  assert (Hnd1 : NoDup (keys st1)).
  { unfold st1. destruct (mem String.eqb sstats spk0); [assumption|].
    now apply (NoDup_keys_set _ str_eqb_eq). }
  assert (Hin1 : forall k, In k (keys sstats) -> In k (keys st1)).
  { intros k Hk. unfold st1. destruct (mem String.eqb sstats spk0); [assumption|].
    now apply In_keys_set. }
  assert (Hs : s = match stats_of spk0 done with
                   | Some x => x
                   | None => {| first_time := turn_start tr; total_time := 0%float |}
                   end).
  { unfold st1, mem in Hs1. specialize (Hstats spk0). unfold stats_get in Hstats.
    destruct (get String.eqb sstats spk0) as [x|] eqn:Hx; simpl in Hs1.
    - rewrite <- Hstats. congruence.
    - rewrite <- Hstats. unfold stats_set in Hs1.
      rewrite (get_set_same _ str_eqb_eq) in Hs1. congruence. }
  split; [|split].
  - intros spk. unfold stats_get, stats_set.
    destruct (String.eqb_spec spk0 spk) as [Heq|Hne].
    + rewrite <- Heq. clear Heq spk.
      rewrite (get_set_same _ str_eqb_eq).
      unfold stats_of at 1. rewrite turns_of_snoc.
      fold spk0. rewrite String.eqb_refl.
      rewrite Hs. unfold stats_of, speaking_time.
      destruct (turns_of spk0 done) as [|t ts] eqn:Ht; simpl; [reflexivity|].
      rewrite fold_left_app. reflexivity.
    + rewrite (get_set_other _ str_eqb_eq) by assumption.
      unfold stats_of. rewrite turns_of_snoc. fold spk0.
      rewrite (proj2 (String.eqb_neq _ _) Hne), app_nil_r.
      fold (stats_of spk done). rewrite <- Hstats.
      unfold st1, stats_get. destruct (mem String.eqb sstats spk0); [reflexivity|].
      unfold stats_set. now rewrite (get_set_other _ str_eqb_eq).
  - unfold stats_set. now apply (NoDup_keys_set _ str_eqb_eq).
  - intros w Hw. unfold stats_set.
    apply write_slots_values in Hw. destruct Hw as [->|Hw].
    + apply (get_Some_In_keys _ str_eqb_eq) with (v := {| first_time := first_time s;
        total_time := (total_time s + (turn_end tr - turn_start tr))%float |}).
      apply (get_set_same _ str_eqb_eq).
    + apply In_keys_set. auto.
Qed.

Lemma build_describes (diarization : list Turn) (st : SpeakerMap * SpeakerStats) :
  build_speaker_maps diarization = Ok st -> maps_describe diarization st.
Proof.
  unfold build_speaker_maps. intros H.
  change diarization with ([] ++ diarization).
  refine (for_each_invariant_prefix turn_step maps_describe _ _ _ _ _ _ H).
  - intros done s a s'. apply turn_step_describes.
  - split; [|split]; simpl.
    + intros spk. reflexivity.
    + constructor.
    + tauto.
Qed.

(** ** Lists, [Counter] and [most_common] *)

Lemma last_snoc {A : Type} (l : list A) (a : A) : last (l ++ [a]) = Ok a.
Proof.
  induction l as [|x l IH]; simpl; [reflexivity|].
  rewrite IH. destruct (l ++ [a]) eqn:E; [|reflexivity].
  destruct l; discriminate.
Qed.

Lemma last2_snoc {A : Type} (l : list A) (b a : A) : last2 (l ++ [b; a]) = Ok b.
Proof.
  induction l as [|x l IH]; simpl; [reflexivity|].
  rewrite IH. destruct (l ++ [b; a]) as [|y [|z r]] eqn:E; [| |reflexivity].
  - destruct l; discriminate.
  - destruct l as [|? [|? ?]]; discriminate.
Qed.

(** [l[-1]] and [l[-2]] read from the reversed list. *)
Lemma last_rev {A : Type} (l : list A) :
  last l = match rev l with
           | [] => Raise IndexError
           | a :: _ => Ok a
           end.
Proof.
  rewrite <- (rev_involutive l) at 1.
  destruct (rev l) as [|a r]; simpl; [reflexivity|]. apply last_snoc.
Qed.

Lemma last2_rev {A : Type} (l : list A) :
  last2 l = match rev l with
            | _ :: b :: _ => Ok b
            | _ => Raise IndexError
            end.
Proof.
  rewrite <- (rev_involutive l) at 1.
  destruct (rev l) as [|a [|b r]]; simpl; try reflexivity.
  rewrite <- app_assoc. apply last2_snoc.
Qed.

Lemma Counter_step_keys (d : dict (K := string) (V := nat)) (s k : string) :
  In k (keys (match get String.eqb d s with
              | Some n => set String.eqb d s (S n)
              | None => set String.eqb d s 1%nat
              end)) ->
  k = s \/ In k (keys d).
Proof.
  destruct (get String.eqb d s); apply set_keys_incl.
Qed.

Lemma Counter_keys (l : list string) (k : string) :
  In k (keys (Counter l)) -> In k l.
Proof.
  unfold Counter.
  enough (H : forall acc, In k (keys (fold_left
            (fun d s => match get String.eqb d s with
                        | Some n => set String.eqb d s (S n)
                        | None => set String.eqb d s 1%nat
                        end) l acc)) -> In k (keys acc) \/ In k l).
  { intros Hk. destruct (H [] Hk) as [[]|]; assumption. }
  induction l as [|s l IH]; intros acc; simpl; [auto|].
  intros Hk. apply IH in Hk. destruct Hk as [Hk|Hk]; [|auto].
  apply Counter_step_keys in Hk. destruct Hk as [->|Hk]; auto.
Qed.

Lemma Counter_not_nil (s : string) (l : list string) : Counter (s :: l) <> [].
Proof.
  unfold Counter. simpl.
  assert (Hacc : [(s, 1%nat)] <> []) by discriminate.
  revert Hacc. generalize [(s, 1%nat)] as acc.
  induction l as [|x l IH]; intros acc Hacc; simpl; [assumption|].
  apply IH. destruct (get String.eqb acc x); apply set_not_nil.
Qed.

Lemma max_item_In (best : string * nat) (l : list (string * nat)) :
  In (max_item best l) (best :: l).
Proof.
  revert best; induction l as [|x l IH]; intros best; simpl; [auto|].
  destruct (IH (if (snd best <? snd x)%nat then x else best)) as [H|H]; [|auto].
  rewrite <- H. destruct (snd best <? snd x)%nat; auto.
Qed.

(** The most common speaker of a non-empty list exists and is one of the
    list. *)
Lemma most_common1_Counter (s : string) (l : list string) :
  exists mc, most_common1 (Counter (s :: l)) = Ok mc /\ In (fst mc) (s :: l).
Proof.
  destruct (Counter (s :: l)) as [|x c] eqn:E.
  - exfalso. revert E. apply Counter_not_nil.
  - exists (max_item x c). split; [reflexivity|].
    apply Counter_keys. rewrite E. unfold keys.
    apply in_map. apply max_item_In.
Qed.

(** ** Hesitation and completion, in the words of the specification *)

Lemma ends_with_hesitation_eq (prev_text : string) :
  ends_with_hesitation prev_text = Ok (hesitant prev_text).
Proof.
  unfold ends_with_hesitation, hesitant.
  destruct (contains "..." prev_text); [reflexivity|]. simpl.
  rewrite last_rev, last2_rev. rewrite <- (length_rev (split prev_text)).
  destruct (rev (split prev_text)) as [|a [|b r]]; reflexivity.
Qed.

Lemma split_aux_nil (cur : list ascii) (s : string) :
  split_aux cur s = [] -> cur = [] /\ all_space s = true.
Proof.
  revert cur; induction s as [|c s IH]; intros cur; simpl.
  - destruct cur; [auto | discriminate].
  - destruct (isspace c); simpl.
    + destruct cur; [|discriminate]. intros H. apply IH in H. tauto.
    + intros H. apply IH in H. destruct H as [H _]. discriminate.
Qed.

Lemma contains_ellipsis_not_blank (s : string) :
  contains "..." s = true -> all_space s = false.
Proof.
  induction s as [|c s IH]; [discriminate|].
  cbn [contains all_space]. destruct (isspace c) eqn:Ec; [|reflexivity].
  assert (Hp : String.prefix "..." (String c s) = false).
  { cbn [String.prefix]. destruct (ascii_dec "."%char c) as [<-|]; [|reflexivity].
    vm_compute in Ec. discriminate. }
  rewrite Hp. simpl. exact IH.
Qed.

(** A hesitant text has a last word. *)
Lemma hesitant_has_word (prev_text : string) :
  hesitant prev_text = true -> rev (split prev_text) <> [].
Proof.
  unfold hesitant. intros H Hnil.
  rewrite Hnil, orb_false_r in H.
  apply contains_ellipsis_not_blank in H.
  apply (f_equal (@rev string)) in Hnil. rewrite rev_involutive in Hnil.
  apply split_aux_nil in Hnil. destruct Hnil as [_ Hnil]. congruence.
Qed.

Lemma hesitant_truthy (prev_text : string) :
  hesitant prev_text = true -> truthy prev_text = true.
Proof.
  destruct prev_text; [discriminate | reflexivity].
Qed.

Lemma is_completion_eq (prev_text text : string) :
  is_completion prev_text text = Ok (hesitant prev_text && completes prev_text text).
Proof.
  unfold is_completion. rewrite ends_with_hesitation_eq. simpl.
  destruct (hesitant prev_text) eqn:Hh; [|reflexivity].
  apply hesitant_has_word in Hh. unfold completes. rewrite last_rev.
  destruct (rev (split prev_text)); [contradiction | reflexivity].
Qed.

(** ** The second pass *)

Lemma other_speaker_spec (sstats : SpeakerStats) (prev spk : string) :
  other_speaker sstats prev spk
  = match filter (fun s => negb (s =? prev)%string) (keys sstats) with
    | [] => spk
    | s :: _ => s
    end.
Proof. reflexivity. Qed.

Lemma other_speaker_key (sstats : SpeakerStats) (prev spk : string) :
  In spk (keys sstats) -> In (other_speaker sstats prev spk) (keys sstats).
Proof.
  unfold other_speaker. intros H.
  destruct (filter _ (keys sstats)) as [|s r] eqn:E; [assumption|].
  assert (Hs : In s (filter (fun s => negb (s =? prev)%string) (keys sstats)))
    by (rewrite E; left; reflexivity).
  apply filter_In in Hs. tauto.
Qed.

Lemma first_key (sstats : SpeakerStats) (s : string) :
  first (keys sstats) = Ok s -> In s (keys sstats).
Proof.
  destruct (keys sstats); simpl; intros H; [discriminate|].
  injection H as ->. auto.
Qed.

(** Whatever branch decides, the chosen speaker is a key of [speaker_stats],
    as soon as the speakers in the slots and the previous speaker are. *)
Lemma choose_speaker_key (sstats : SpeakerStats) (prev : option string)
    (prev_text : string) (sis : list string) (text spk : string) :
  (forall w, In w sis -> In w (keys sstats)) ->
  (forall p, prev = Some p -> In p (keys sstats)) ->
  choose_speaker sstats prev prev_text sis text = Ok spk ->
  In spk (keys sstats).
Proof.
  intros Hsis Hprev. unfold choose_speaker.
  destruct sis as [|w sis].
  - destruct prev as [p|].
    + destruct (truthy p); intros H; [injection H as <-; auto | now apply first_key].
    + apply first_key.
  - destruct (most_common1_Counter w sis) as (mc & -> & Hmc). simpl.
    apply Hsis in Hmc.
    destruct prev as [p|]; [|intros H; injection H as <-; assumption].
    destruct (truthy prev_text && truthy p).
    + rewrite is_completion_eq. simpl.
      destruct (hesitant prev_text && completes prev_text text);
        intros H; injection H as <-; [now apply other_speaker_key | assumption].
    + intros H; injection H as <-; assumption.
Qed.

Lemma speakers_in_range_values (m : SpeakerMap) (lo hi : Z) (w : string) :
  In w (speakers_in_range m lo hi) -> In w (map snd m).
Proof.
  unfold speakers_in_range. intros H. apply in_flat_map in H.
  destruct H as (t & _ & H).
  destruct (map_get m (int_truediv t 100)) as [s|] eqn:E; [|contradiction].
  destruct H as [<-|[]]. apply (get_In_values _ _ _ _ E).
Qed.

Lemma segment_step_inv (m : SpeakerMap) (sstats : SpeakerStats)
    (done : list WhisperSegment) (st st' : ResolverState) (g : WhisperSegment) :
  (forall w, In w (map snd m) -> In w (keys sstats)) ->
  resolver_inv sstats done st -> segment_step m sstats st g = Ok st' ->
  resolver_inv sstats (done ++ [g]) st'.
Proof.
  intros Hm. destruct st as [[temp prev] prev_text].
  intros (Hpay & Hkeys & Hprev) H. unfold segment_step in H.
  inv_bind H. inv_bind H. inv_bind H. injection H as <-.
  rename a1 into spk.
  apply choose_speaker_key in Hstep1; [|intros w Hw; apply Hm;
    now apply speakers_in_range_values in Hw | assumption].
  split; [|split].
  - rewrite !map_app, Hpay. reflexivity.
  - apply Forall_app. split; [assumption|]. constructor; [assumption|constructor].
  - intros p Hp. injection Hp as <-. assumption.
Qed.

Lemma resolve_segments_inv (m : SpeakerMap) (sstats : SpeakerStats)
    (segs : list WhisperSegment) (temp : list SpeakerSegment) :
  (forall w, In w (map snd m) -> In w (keys sstats)) ->
  resolve_segments m sstats segs = Ok temp ->
  map payload temp = map stripped_payload segs /\
  Forall (fun s => In (speaker s) (keys sstats)) temp.
Proof.
  intros Hm H. unfold resolve_segments in H. inv_bind H. injection H as <-.
  assert (Hinv : resolver_inv sstats ([] ++ segs) a).
  { refine (for_each_invariant_prefix (segment_step m sstats) (resolver_inv sstats)
              _ _ _ _ _ _ Hstep).
    - intros done s g s'. now apply segment_step_inv.
    - simpl. split; [reflexivity|]. split; [constructor | discriminate]. }
  destruct a as [[temp prev] prev_text]. simpl in *. tauto.
Qed.

(** ** Label normalization: the rewrite of the speaker fields *)

Lemma apply_mapping_spec (mapping : dict (K := string) (V := string))
    (temp acc out : list SpeakerSegment) :
  for_each (relabel mapping) temp acc = Ok out ->
  exists out', out = acc ++ out' /\ relabelled mapping temp out'.
Proof.
  revert acc; induction temp as [|t temp IH]; intros acc; simpl; intros H.
  - injection H as <-. exists []. rewrite app_nil_r. split; [reflexivity|constructor].
  - inv_bind H. unfold relabel, getitem in Hstep.
    destruct (get String.eqb mapping (speaker t)) as [label|] eqn:E; [|discriminate].
    simpl in Hstep. injection Hstep as <-.
    apply IH in H. destruct H as (out' & -> & Hrel).
    eexists. rewrite <- app_assoc. split; [reflexivity|].
    constructor; [|assumption]. split; [assumption | reflexivity].
Qed.

Lemma apply_mapping_total (mapping : dict (K := string) (V := string))
    (temp acc : list SpeakerSegment) :
  Forall (fun s => In (speaker s) (keys mapping)) temp ->
  exists out, for_each (relabel mapping) temp acc = Ok out.
Proof.
  intros H; revert acc; induction H as [|t temp Ht _ IH]; intros acc; simpl.
  - eauto.
  - unfold relabel at 1, getitem.
    destruct (In_keys_get _ str_eqb_eq _ _ Ht) as (label & ->). simpl. apply IH.
Qed.

Lemma relabelled_payload (mapping : dict (K := string) (V := string))
    (temp out : list SpeakerSegment) :
  relabelled mapping temp out -> map payload out = map payload temp.
Proof.
  induction 1 as [|t o temp out [_ Hp] _ IH]; simpl; [reflexivity|].
  now rewrite Hp, IH.
Qed.

(** The parts of a normal run of the diarization branch. *)
Lemma diarized_segments_Ok (diarization : list Turn) (segs : list WhisperSegment)
    (out : list SpeakerSegment) :
  diarized_segments diarization segs = Ok out ->
  exists m sstats temp,
    build_speaker_maps diarization = Ok (m, sstats) /\
    resolve_segments m sstats segs = Ok temp /\
    relabelled (speaker_mapping sstats) temp out.
Proof.
  unfold diarized_segments. intros H. inv_bind H. destruct a as [m sstats].
  inv_bind H. unfold apply_mapping in H. apply apply_mapping_spec in H.
  destruct H as (out' & -> & Hrel). simpl. eauto 7.
Qed.

Lemma diarized_segments_payload (diarization : list Turn) (segs : list WhisperSegment)
    (out : list SpeakerSegment) :
  diarized_segments diarization segs = Ok out ->
  map payload out = map stripped_payload segs.
Proof.
  intros H. apply diarized_segments_Ok in H.
  destruct H as (m & sstats & temp & Hb & Hr & Hrel).
  apply build_describes in Hb. destruct Hb as (_ & _ & Hval).
  apply resolve_segments_inv in Hr; [|exact Hval].
  rewrite (relabelled_payload _ _ _ Hrel). tauto.
Qed.

Lemma speakers_in_range_nil (lo hi : Z) : speakers_in_range [] lo hi = [].
Proof.
  unfold speakers_in_range. induction (range lo hi); simpl; auto.
Qed.

(** ** Floats: [<] is a strict order *)

Ltac compare_cases :=
  repeat match goal with
  | |- context [Z.compare ?a ?b] => destruct (Z.compare_spec a b)
  | H : context [Z.compare ?a ?b] |- _ => destruct (Z.compare_spec a b)
  | |- context [PosDef.Pos.compare_cont Eq ?a ?b] =>
      change (PosDef.Pos.compare_cont Eq a b) with (Pos.compare a b);
      destruct (Pos.compare_spec a b)
  | H : context [PosDef.Pos.compare_cont Eq ?a ?b] |- _ =>
      change (PosDef.Pos.compare_cont Eq a b) with (Pos.compare a b) in H;
      destruct (Pos.compare_spec a b)
  end.

Lemma SFltb_trans (x y z : spec_float) :
  SFltb x y = true -> SFltb y z = true -> SFltb x z = true.
Proof.
  unfold SFltb, SFcompare.
  destruct x as [sx|sx| |sx mx ex], y as [sy|sy| |sy my ey], z as [sz|sz| |sz mz ez];
    try destruct sx; try destruct sy; try destruct sz;
    try discriminate; try reflexivity;
    intros H1 H2; compare_cases; simpl in *; try discriminate; try reflexivity;
    subst; try lia.
Qed.

Lemma SFltb_asym (x y : spec_float) : SFltb x y = true -> SFltb y x = false.
Proof.
  unfold SFltb, SFcompare.
  destruct x as [sx|sx| |sx mx ex], y as [sy|sy| |sy my ey];
    try destruct sx; try destruct sy;
    try discriminate; try reflexivity;
    intros H1; compare_cases; simpl in *; try discriminate; try reflexivity;
    subst; try lia.
Qed.

Lemma float_ltb_trans (x y z : float) :
  (x <? y)%float = true -> (y <? z)%float = true -> (x <? z)%float = true.
Proof. rewrite !ltb_spec. apply SFltb_trans. Qed.

Lemma float_ltb_asym (x y : float) :
  (x <? y)%float = true -> (y <? x)%float = false.
Proof. rewrite !ltb_spec. apply SFltb_asym. Qed.

(** ** [sorted] *)

Section SortedFacts.
Context {A : Type} (key : A -> float).

Lemma insert_sorted_perm (x : A) (l : list A) :
  Permutation (insert_sorted key x l) (x :: l).
Proof.
  induction l as [|y l IH]; simpl; [reflexivity|].
  destruct (key x <? key y)%float; [reflexivity|].
  rewrite IH. apply perm_swap.
Qed.

Lemma sorted_perm (l : list A) : Permutation (sorted key l) l.
Proof.
  unfold sorted.
  enough (H : forall acc, Permutation
            (fold_left (fun acc x => insert_sorted key x acc) l acc) (acc ++ l))
    by apply (H []).
  induction l as [|x l IH]; intros acc; simpl.
  - now rewrite app_nil_r.
  - rewrite IH, insert_sorted_perm. apply Permutation_middle.
Qed.

Lemma insert_sorted_sorted (x : A) (l : list A) :
  StronglySorted (not_after key) l -> StronglySorted (not_after key) (insert_sorted key x l).
Proof.
  induction 1 as [|y l Hl IH Hy]; simpl.
  - constructor; constructor.
  - destruct (key x <? key y)%float eqn:E.
    + constructor; [constructor; assumption|].
      constructor; [now apply float_ltb_asym|].
      apply Forall_forall. intros z Hz.
      rewrite Forall_forall in Hy. specialize (Hy z Hz).
      unfold not_after in *.
      destruct (key z <? key x)%float eqn:Ez; [|reflexivity].
      rewrite (float_ltb_trans _ _ _ Ez E) in Hy. discriminate.
    + constructor; [assumption|].
      apply (Permutation_Forall (Permutation_sym (insert_sorted_perm x l))).
      constructor; assumption.
Qed.

Lemma sorted_sorted (l : list A) : StronglySorted (not_after key) (sorted key l).
Proof.
  unfold sorted.
  enough (H : forall acc, StronglySorted (not_after key) acc ->
            StronglySorted (not_after key)
              (fold_left (fun acc x => insert_sorted key x acc) l acc))
    by (apply H; constructor).
  induction l as [|x l IH]; intros acc Hacc; simpl; [assumption|].
  apply IH. now apply insert_sorted_sorted.
Qed.

(** In a sorted list a smaller key stands at a smaller index. *)
Lemma sorted_index_order (l : list A) (i j : nat) (a b : A) :
  StronglySorted (not_after key) l ->
  nth_error l i = Some a -> nth_error l j = Some b ->
  (key a <? key b)%float = true -> (i < j)%nat.
Proof.
  intros Hs; revert i j; induction Hs as [|y l Hl IH Hy]; intros i j Ha Hb Hlt.
  - destruct i; discriminate.
  - destruct i as [|i], j as [|j]; simpl in Ha, Hb.
    + injection Ha as <-. injection Hb as <-.
      rewrite (float_ltb_asym _ _ Hlt) in Hlt. discriminate.
    + lia.
    + injection Hb as <-. apply nth_error_In in Ha.
      rewrite Forall_forall in Hy. specialize (Hy a Ha). unfold not_after in Hy.
      congruence.
    + apply -> Nat.succ_lt_mono. eauto.
Qed.
End SortedFacts.

(** ** The speaker mapping *)

Lemma speaker_label_inj (n n' : nat) : speaker_label n = speaker_label n' -> n = n'.
Proof.
  unfold speaker_label, str_of_nat. simpl. intros H. injection H as H.
  apply Unsigned.to_uint_inj.
  apply (f_equal NilEmpty.uint_of_string) in H.
  rewrite !NilEmpty.usu in H. now injection H.
Qed.

Lemma enumerate_from_keys {A : Type} (l : list (string * A)) (from : nat) :
  map (fun item : nat * (string * A) => fst (snd item))
      (combine (seq from (List.length l)) l)
  = map fst l.
Proof.
  revert from; induction l as [|x l IH]; intros from; simpl; [reflexivity|].
  now rewrite IH.
Qed.

Lemma enumerate_from_indices {A B : Type} (f : nat -> B) (l : list A) (from : nat) :
  map (fun item : nat * A => f (fst item)) (combine (seq from (List.length l)) l)
  = map f (seq from (List.length l)).
Proof.
  revert from; induction l as [|x l IH]; intros from; simpl; [reflexivity|].
  now rewrite IH.
Qed.

Lemma enumerate_from_nth {A : Type} (l : list A) (from i : nat) (x : A) :
  nth_error l i = Some x ->
  nth_error (combine (seq from (List.length l)) l) i = Some ((from + i)%nat, x).
Proof.
  revert from i; induction l as [|y l IH]; intros from i; simpl.
  - destruct i; discriminate.
  - destruct i as [|i]; simpl; intros H.
    + injection H as <-. now rewrite Nat.add_0_r.
    + rewrite (IH (S from) i H). f_equal. f_equal. lia.
Qed.

Lemma label_items_keys (speakers : list (string * Stats)) :
  keys (label_items speakers) = keys speakers.
Proof.
  unfold keys, label_items, enumerate. rewrite map_map. simpl.
  apply enumerate_from_keys.
Qed.

Lemma label_items_values (speakers : list (string * Stats)) :
  map snd (label_items speakers)
  = map speaker_label (seq 1 (List.length speakers)).
Proof.
  unfold label_items, enumerate. rewrite map_map. simpl.
  rewrite (enumerate_from_indices (fun i => speaker_label (i + 1))).
  rewrite <- seq_shift, map_map. apply map_ext. intros i. f_equal. lia.
Qed.

Lemma label_items_nth (speakers : list (string * Stats)) (i : nat)
    (spk : string) (st : Stats) :
  nth_error speakers i = Some (spk, st) ->
  In (spk, speaker_label (i + 1)) (label_items speakers).
Proof.
  intros H. unfold label_items, enumerate.
  apply (enumerate_from_nth _ 0) in H. apply nth_error_In in H.
  apply (in_map (fun item : nat * (string * Stats) =>
                   (fst (snd item), speaker_label (fst item + 1)))) in H.
  exact H.
Qed.

(** Writing items with pairwise different new keys appends them. *)
Lemma mapping_fold_fresh (items : list (nat * (string * Stats)))
    (acc : dict (K := string) (V := string)) :
  NoDup (keys acc ++ map (fun item : nat * (string * Stats) => fst (snd item)) items) ->
  fold_left
    (fun d (item : nat * (string * Stats)) =>
       let '(idx, (spk, _)) := item in
       set String.eqb d spk (speaker_label (idx + 1)))
    items acc
  = acc ++ map (fun item : nat * (string * Stats) =>
                  (fst (snd item), speaker_label (fst item + 1))) items.
Proof.
  revert acc; induction items as [|[idx [spk st]] items IH]; intros acc Hnd; simpl.
  - now rewrite app_nil_r.
  - simpl in Hnd.
    assert (Hfresh : get String.eqb acc spk = None).
    { apply (get_None_iff _ str_eqb_eq). intros Hin.
      apply NoDup_remove_2 in Hnd. apply Hnd. apply in_or_app. auto. }
    rewrite (set_absent _ _ _ _ Hfresh). rewrite IH.
    + now rewrite <- app_assoc.
    + unfold keys in *. rewrite map_app, <- app_assoc. exact Hnd.
Qed.

Lemma sorted_speakers_keys (sstats : SpeakerStats) :
  Permutation (keys (sorted_speakers sstats)) (keys sstats).
Proof.
  unfold keys, sorted_speakers. apply Permutation_map. apply sorted_perm.
Qed.

Lemma speaker_mapping_eq (sstats : SpeakerStats) :
  NoDup (keys sstats) ->
  speaker_mapping sstats = label_items (sorted_speakers sstats).
Proof.
  intros Hnd. unfold speaker_mapping. rewrite mapping_fold_fresh; [reflexivity|].
  simpl. unfold enumerate. rewrite enumerate_from_keys.
  apply (Permutation_NoDup (Permutation_sym (sorted_speakers_keys sstats)) Hnd).
Qed.

Lemma speaker_mapping_keys (sstats : SpeakerStats) :
  NoDup (keys sstats) ->
  Permutation (keys (speaker_mapping sstats)) (keys sstats).
Proof.
  intros Hnd. rewrite (speaker_mapping_eq _ Hnd), label_items_keys.
  apply sorted_speakers_keys.
Qed.

(** The label of a speaker is its index among the sorted speakers, plus
    one. *)
Lemma speaker_mapping_nth (sstats : SpeakerStats) (i : nat) (spk : string) (st : Stats) :
  NoDup (keys sstats) ->
  nth_error (sorted_speakers sstats) i = Some (spk, st) ->
  get String.eqb (speaker_mapping sstats) spk = Some (speaker_label (i + 1)).
Proof.
  intros Hnd Hi. apply (In_get_NoDup _ str_eqb_eq).
  - apply (Permutation_NoDup (Permutation_sym (speaker_mapping_keys _ Hnd)) Hnd).
  - rewrite (speaker_mapping_eq _ Hnd). now apply label_items_nth with (st := st).
Qed.

(** The keys of the statistics are the speaker ids of the turns. *)
Lemma stats_keys_iff (diarization : list Turn) (st : SpeakerMap * SpeakerStats)
    (spk : string) :
  maps_describe diarization st ->
  In spk (keys (snd st)) <-> In spk (map turn_speaker diarization).
Proof.
  intros (Hstats & _ & _). specialize (Hstats spk). unfold stats_get in Hstats.
  assert (Hturns : turns_of spk diarization <> [] <->
                   In spk (map turn_speaker diarization)).
  { unfold turns_of. split.
    - intros H. destruct (filter _ diarization) as [|t ts] eqn:E; [contradiction|].
      assert (Ht : In t (filter (fun t => (turn_speaker t =? spk)%string) diarization))
        by (rewrite E; left; reflexivity).
      apply filter_In in Ht. destruct Ht as [Ht Heq].
      apply String.eqb_eq in Heq. subst spk. now apply in_map.
    - intros H Hnil. apply in_map_iff in H. destruct H as (t & <- & Ht).
      assert (Hin : In t (filter (fun u => (turn_speaker u =? turn_speaker t)%string)
                            diarization))
        by (apply filter_In; split; [assumption | apply String.eqb_refl]).
      rewrite Hnil in Hin. contradiction. }
  rewrite <- Hturns. unfold stats_of in Hstats. split.
  - intros Hin Hnil. apply (In_keys_get _ str_eqb_eq) in Hin.
    destruct Hin as (v & Hv). rewrite Hnil in Hstats. congruence.
  - intros Hne. destruct (turns_of spk diarization); [contradiction|].
    now apply (get_Some_In_keys _ str_eqb_eq) in Hstats.
Qed.

Lemma stats_keys_distinct (diarization : list Turn) (st : SpeakerMap * SpeakerStats) :
  maps_describe diarization st ->
  Permutation (keys (snd st)) (distinct_speakers diarization).
Proof.
  intros H. apply NoDup_Permutation.
  - apply H.
  - apply NoDup_nodup.
  - intros spk. unfold distinct_speakers. rewrite nodup_In.
    now apply stats_keys_iff.
Qed.

(** A normal run keeps the times and the stripped text of every segment. *)
Lemma try_body_payload (r : WhisperResponse)
    (pipeline : option (outcome (list Turn))) (res : TranscriptionResponse) :
  try_body (Ok r) pipeline = Ok res ->
  map payload (segments res) = map stripped_payload (get_segments r).
Proof.
  intros H. apply try_body_Ok in H. destruct H as (r' & Hr & Hsegs & _).
  injection Hr as <-. destruct pipeline as [run|].
  - destruct Hsegs as (d & _ & Hd). now apply diarized_segments_payload in Hd.
  - rewrite Hsegs, fallback_segments_eq. apply fallback_from_payload.
Qed.

Lemma try_body_length (r : WhisperResponse)
    (pipeline : option (outcome (list Turn))) (res : TranscriptionResponse) :
  try_body (Ok r) pipeline = Ok res ->
  List.length (segments res) = List.length (get_segments r).
Proof.
  intros H. apply try_body_payload in H.
  apply (f_equal (@List.length _)) in H. now rewrite !length_map in H.
Qed.

(** The normal runs of the diarization branch, once the first pass is
    known. *)
Lemma diarized_segments_after_build (diarization : list Turn)
    (segs : list WhisperSegment) (m : SpeakerMap) (sstats : SpeakerStats)
    (out : list SpeakerSegment) :
  build_speaker_maps diarization = Ok (m, sstats) ->
  diarized_segments diarization segs = Ok out ->
  exists temp,
    resolve_segments m sstats segs = Ok temp /\
    relabelled (speaker_mapping sstats) temp out.
Proof.
  intros Hb H. unfold diarized_segments in H. rewrite Hb in H. simpl in H.
  inv_bind H. unfold apply_mapping in H. apply apply_mapping_spec in H.
  destruct H as (out' & -> & Hrel). simpl. eauto.
Qed.

Lemma relabelled_labels (mapping : dict (K := string) (V := string))
    (temp out : list SpeakerSegment) :
  relabelled mapping temp out ->
  Forall (fun o => In (speaker o) (map snd mapping)) out.
Proof.
  induction 1 as [|t o temp out [Hget _] _ IH]; constructor; [|assumption].
  apply (get_In_values _ _ _ _ Hget).
Qed.

Lemma speaker_mapping_values (diarization : list Turn) (m : SpeakerMap)
    (sstats : SpeakerStats) :
  build_speaker_maps diarization = Ok (m, sstats) ->
  map snd (speaker_mapping sstats)
  = map speaker_label (seq 1 (List.length (distinct_speakers diarization))).
Proof.
  intros Hb. apply build_describes in Hb.
  pose proof (stats_keys_distinct _ _ Hb) as Hperm. destruct Hb as (_ & Hnd & _).
  simpl in Hnd, Hperm.
  rewrite (speaker_mapping_eq _ Hnd), label_items_values. do 2 f_equal.
  rewrite <- (Permutation_length Hperm).
  rewrite <- (Permutation_length (sorted_speakers_keys sstats)).
  unfold keys. now rewrite length_map.
Qed.

(** Two different speakers never share a label. *)
Lemma speaker_mapping_inj (sstats : SpeakerStats) (a b label : string) :
  NoDup (keys sstats) ->
  get String.eqb (speaker_mapping sstats) a = Some label ->
  get String.eqb (speaker_mapping sstats) b = Some label ->
  a = b.
Proof.
  intros Hnd Ha Hb.
  apply (get_In _ str_eqb_eq) in Ha. apply (get_In _ str_eqb_eq) in Hb.
  assert (Hv : NoDup (map snd (speaker_mapping sstats))).
  { rewrite (speaker_mapping_eq _ Hnd), label_items_values.
    apply Finite.Injective_map_NoDup; [exact speaker_label_inj | apply seq_NoDup]. }
  revert Ha Hb Hv. generalize (speaker_mapping sstats) as l.
  induction l as [|[k v] l IH]; simpl; [tauto|].
  intros [Ha|Ha] [Hb|Hb] Hv; inversion Hv as [|? ? Hnotin Hv']; subst.
  - congruence.
  - injection Ha as -> ->. exfalso. apply Hnotin.
    change label with (snd (b, label)). now apply in_map.
  - injection Hb as -> ->. exfalso. apply Hnotin.
    change label with (snd (a, label)). now apply in_map.
  - auto.
Qed.

(** ** The keys that [sorted] compares *)

(** Apart from NaN, [<] is a strict weak order: what is not smaller than
    [x] nor greater than [z] does not stand between them. *)
Lemma SFltb_between (x y z : spec_float) :
  SFltb x z = true -> y <> S754_nan -> SFltb x y || SFltb y z = true.
Proof.
  unfold SFltb, SFcompare.
  destruct x as [sx|sx| |sx mx ex], y as [sy|sy| |sy my ey], z as [sz|sz| |sz mz ez];
    try destruct sx; try destruct sy; try destruct sz;
    try discriminate; try reflexivity; try congruence;
    intros H1 _; compare_cases; simpl in *; try discriminate; try reflexivity;
    subst; try lia.
Qed.

Lemma float_ltb_between (x y z : float) :
  (x <? z)%float = true -> is_nan y = false ->
  (x <? y)%float || (y <? z)%float = true.
Proof.
  unfold is_nan. rewrite !ltb_spec. intros H Hy. apply SFltb_between; [exact H|].
  intros E. rewrite E in Hy. discriminate.
Qed.

(** A time whose hundredfold converts to an integer is not NaN. *)
Lemma int_of_float_not_nan (x : float) (n : Z) :
  int_of_float (x * 100)%float = Ok n -> is_nan x = false.
Proof.
  unfold int_of_float, is_nan. rewrite mul_spec.
  destruct (Prim2SF x); try reflexivity. vm_compute. discriminate.
Qed.

Lemma turn_step_first_times (st st' : SpeakerMap * SpeakerStats) (tr : Turn) :
  Forall (fun s => is_nan (first_time s) = false) (map snd (snd st)) ->
  turn_step st tr = Ok st' ->
  Forall (fun s => is_nan (first_time s) = false) (map snd (snd st')).
Proof.
  destruct st as [m sstats]. simpl. intros Hall H. unfold turn_step in H.
  inv_bind H. inv_bind H. inv_bind H. injection H as <-. simpl.
  apply int_of_float_not_nan in Hstep0.
  set (st1 := if mem String.eqb sstats (turn_speaker tr) then sstats
              else stats_set sstats (turn_speaker tr)
                     {| first_time := turn_start tr; total_time := 0%float |}) in *.
  assert (H1 : Forall (fun s => is_nan (first_time s) = false) (map snd st1)).
  { unfold st1. destruct (mem String.eqb sstats (turn_speaker tr)); [assumption|].
    apply Forall_forall. intros w Hw. apply set_values_incl in Hw.
    destruct Hw as [->|Hw]; [exact Hstep0|].
    rewrite Forall_forall in Hall. auto. }
  unfold getitem in Hstep.
  destruct (get String.eqb st1 (turn_speaker tr)) as [s|] eqn:Hs; [|discriminate].
  injection Hstep as <-. apply get_In_values in Hs.
  rewrite Forall_forall in H1.
  apply Forall_forall. intros w Hw. apply set_values_incl in Hw.
  destruct Hw as [->|Hw]; [simpl|]; auto.
Qed.

(** No [first_time] that reaches [sorted] is NaN, so that [<] orders the
    keys as a strict weak order and the stable sort has one result. *)
Lemma first_times_not_nan (diarization : list Turn) (m : SpeakerMap)
    (sstats : SpeakerStats) :
  build_speaker_maps diarization = Ok (m, sstats) ->
  Forall (fun s => is_nan (first_time s) = false) (map snd sstats).
Proof.
  intros H.
  apply (for_each_invariant turn_step
           (fun st => Forall (fun s => is_nan (first_time s) = false) (map snd (snd st)))
           (fun s a s' Hs Hstep => turn_step_first_times s s' a Hs Hstep)
           diarization ([], []) (m, sstats)); [constructor | exact H].
Qed.


(** ** The smallest start *)

Lemma min_start_first (t : Turn) (ts : list Turn) :
  Forall (fun u => (turn_start u <? turn_start t)%float = false) ts ->
  min_start (t :: ts) = Some (turn_start t).
Proof.
  unfold min_start. intros H. f_equal.
  induction H as [|u ts Hu _ IH]; simpl; [reflexivity|].
  now rewrite Hu.
Qed.

(** ** The resolver's speakers and the mapping *)

(** The speakers the resolver records are keys of the statistics, and the
    rewrite through the mapping finds every one of them. *)
Lemma resolved_speakers_mapped (diarization : list Turn) (segs : list WhisperSegment)
    (m : SpeakerMap) (sstats : SpeakerStats) (temp : list SpeakerSegment) :
  build_speaker_maps diarization = Ok (m, sstats) ->
  resolve_segments m sstats segs = Ok temp ->
  Forall (fun s => In (speaker s) (keys sstats)) temp
  /\ Forall (fun s => exists label,
                get String.eqb (speaker_mapping sstats) (speaker s) = Some label) temp
  /\ exists out, apply_mapping (speaker_mapping sstats) temp = Ok out.
Proof.
  intros Hb Hr. apply build_describes in Hb. destruct Hb as (_ & Hnd & Hval).
  simpl in Hnd, Hval.
  apply resolve_segments_inv in Hr; [|exact Hval]. destruct Hr as [_ Hkeys].
  assert (Hmapped : Forall (fun s => In (speaker s) (keys (speaker_mapping sstats))) temp).
  { eapply Forall_impl; [|exact Hkeys]. intros s Hs. simpl.
    apply (Permutation_in _ (Permutation_sym (speaker_mapping_keys _ Hnd))). exact Hs. }
  split; [exact Hkeys|]. split.
  - eapply Forall_impl; [|exact Hmapped]. intros s Hs.
    now apply (In_keys_get _ str_eqb_eq).
  - now apply apply_mapping_total.
Qed.

(** ** When the diarization branch returns normally *)

Lemma for_each_total {A S : Type} (body : S -> A -> outcome S) (Q : A -> Prop) :
  (forall s a, Q a -> exists s', body s a = Ok s') ->
  forall l s, Forall Q l -> exists s', for_each body l s = Ok s'.
Proof.
  intros Hstep l; induction l as [|a l IH]; intros s Hl; simpl; [eauto|].
  inversion Hl as [|? ? Ha Hl']; subst.
  destruct (Hstep s a Ha) as (s' & ->). simpl. auto.
Qed.

(** With a speaker in the statistics, choosing a speaker never raises. *)
Lemma choose_speaker_total (sstats : SpeakerStats) (prev : option string)
    (prev_text : string) (sis : list string) (text : string) :
  sstats <> [] ->
  exists spk, choose_speaker sstats prev prev_text sis text = Ok spk.
Proof.
  intros Hne. unfold choose_speaker.
  assert (Hfirst : exists spk, first (keys sstats) = Ok spk)
    by (destruct sstats as [|[k v] d]; [contradiction | simpl; eauto]).
  destruct sis as [|w sis].
  - destruct prev as [p|]; [destruct (truthy p); eauto | assumption].
  - destruct (most_common1_Counter w sis) as (mc & -> & _). simpl.
    destruct prev as [p|]; [|eauto].
    destruct (truthy prev_text && truthy p); [|eauto].
    rewrite is_completion_eq. simpl.
    destruct (hesitant prev_text && completes prev_text text); eauto.
Qed.

(** Once the first pass went through with at least one speaker, the
    diarization branch returns normally on segments with finite times. *)
Lemma diarized_segments_returns (diarization : list Turn) (segs : list WhisperSegment)
    (m : SpeakerMap) (sstats : SpeakerStats) :
  build_speaker_maps diarization = Ok (m, sstats) ->
  sstats <> [] ->
  Forall times_convert segs ->
  exists out, diarized_segments diarization segs = Ok out.
Proof.
  intros Hb Hne Hsegs.
  assert (Hr : exists temp, resolve_segments m sstats segs = Ok temp).
  { unfold resolve_segments.
    destruct (for_each_total (segment_step m sstats) times_convert) with
      (l := segs) (s := ([] : list SpeakerSegment, @None string, "")) as (st & ->);
      [|assumption|simpl; eauto].
    intros [[temp prev] prev_text] g ((lo & Hlo) & (hi & Hhi)).
    unfold segment_step. rewrite Hlo, Hhi. simpl.
    destruct (choose_speaker_total sstats prev prev_text
                (speakers_in_range m lo hi) (strip (seg_text g)) Hne) as (spk & ->).
    simpl. eauto. }
  destruct Hr as (temp & Hr).
  destruct (resolved_speakers_mapped _ _ _ _ _ Hb Hr) as (_ & _ & out & Hout).
  exists out. unfold diarized_segments. rewrite Hb. simpl. rewrite Hr. simpl. exact Hout.
Qed.

(* ================================================================== *)
(** * The claims *)
(* ================================================================== *)

(** C1: whenever the transcription call or the diarization call raises, the
    service returns a response with exactly one segment, whose speaker is
    "ERROR", with duration 0.0, language "en", and the failure description
    both as the text of the segment and as the full transcript.  The service
    returns a response and raises nothing. *)
Theorem upstream_failure_contained (asr : outcome WhisperResponse)
    (pipeline : option (outcome (list Turn))) (e : exn) :
  asr = Raise e \/ (exists r, asr = Ok r /\ pipeline = Some (Raise e)) ->
  let res := transcribe_audio_with_diarization asr pipeline in
  let msg := ("Error transcribing audio: " ++ str_of_exn e)%string in
  segments res = [{| speaker := "ERROR"; start := 0%float; end_ := 0%float;
                     text := msg |}]
  /\ full_transcript res = msg
  /\ language res = Some "en"
  /\ duration res = 0%float.
Proof.
  intros [->|(r & -> & ->)]; simpl; auto.
Qed.

Lemma upstream_failure_contained_witness :
  let asr := Ok {| resp_segments := Some [{| seg_start := 0%float; seg_end := 1%float;
                                             seg_text := "hello" |}];
                   resp_text := Some "hello"; resp_language := Some "en" |} in
  let res := transcribe_audio_with_diarization asr (Some (Raise (Upstream "out of memory"))) in
  segments res = [{| speaker := "ERROR"; start := 0%float; end_ := 0%float;
                     text := "Error transcribing audio: out of memory" |}]
  /\ full_transcript res = "Error transcribing audio: out of memory"
  /\ language res = Some "en"
  /\ duration res = 0%float.
Proof.
  apply (upstream_failure_contained _ _ (Upstream "out of memory")).
  right. eexists. split; reflexivity.
Defined.

(** C2, as stated: the output keeps the text of every input segment.  It
    does not: the text is stripped of the whitespace around it. *)
Lemma text_kept_verbatim_counterexample :
  let g := {| seg_start := 0%float; seg_end := 1%float; seg_text := " hi" |} in
  let r := {| resp_segments := Some [g]; resp_text := Some " hi";
              resp_language := Some "en" |} in
  map payload (segments (transcribe_audio_with_diarization (Ok r) None))
  <> map (fun g => (seg_start g, seg_end g, seg_text g)) (get_segments r).
Proof.
  vm_compute. intros H. discriminate H.
Qed.

(** C2, amended: whenever the body of the service returns normally (which
    the fallback path always does), the output has as many segments as the
    input and, at every index, the start and end of the input segment and
    its text stripped of leading and trailing whitespace. *)
Theorem segments_keep_order (r : WhisperResponse)
    (pipeline : option (outcome (list Turn))) (res : TranscriptionResponse) :
  try_body (Ok r) pipeline = Ok res ->
  transcribe_audio_with_diarization (Ok r) pipeline = res
  /\ List.length (segments res) = List.length (get_segments r)
  /\ map payload (segments res) = map stripped_payload (get_segments r).
Proof.
  intros H. split; [now apply transcribe_Ok|].
  split; [exact (try_body_length _ _ _ H) | exact (try_body_payload _ _ _ H)].
Qed.

Lemma segments_keep_order_witness :
  let r := {| resp_segments :=
                Some [{| seg_start := 0%float; seg_end := 1%float; seg_text := " hi " |};
                      {| seg_start := 1%float; seg_end := 2%float; seg_text := " you" |}];
              resp_text := Some " hi  you"; resp_language := Some "en" |} in
  let pipeline := Some (Ok [{| turn_start := 0%float; turn_end := 2%float;
                               turn_speaker := "SPEAKER_00" |}]) in
  exists res,
    try_body (Ok r) pipeline = Ok res
    /\ transcribe_audio_with_diarization (Ok r) pipeline = res
    /\ List.length (segments res) = List.length (get_segments r)
    /\ map payload (segments res) = map stripped_payload (get_segments r).
Proof.
  cbv zeta. eexists. split; [vm_compute; reflexivity|].
  apply segments_keep_order. vm_compute. reflexivity.
Defined.


(** C8: when the body of the service returns normally, the duration is the
    end of the last output segment and 0.0 when there is none; with no input
    segment the output has no segment, the duration is 0.0 and the full
    transcript is the text of the transcription. *)
Theorem duration_is_last_end (r : WhisperResponse)
    (pipeline : option (outcome (list Turn))) (res : TranscriptionResponse) :
  try_body (Ok r) pipeline = Ok res ->
  transcribe_audio_with_diarization (Ok r) pipeline = res
  /\ (forall l s, segments res = l ++ [s] -> duration res = end_ s)
  /\ (segments res = [] -> duration res = 0%float)
  /\ (forall t, resp_text r = Some t -> full_transcript res = t)
  /\ (get_segments r = [] ->
      segments res = [] /\ duration res = 0%float
      /\ full_transcript res = or_default (resp_text r) "").
Proof.
  intros H. split; [now apply transcribe_Ok|].
  pose proof (try_body_length _ _ _ H) as Hlen.
  apply try_body_Ok in H. destruct H as (r' & Hr & _ & Hfull & _ & Hdur).
  injection Hr as <-. rewrite Hdur, Hfull.
  split; [|split; [|split]].
  - intros l s ->. apply duration_of_snoc.
  - intros ->. reflexivity.
  - intros t ->. reflexivity.
  - intros Hnil. rewrite Hnil in Hlen.
    destruct (segments res); [auto | discriminate].
Qed.

Lemma duration_is_last_end_witness :
  let r := {| resp_segments :=
                Some [{| seg_start := 0%float; seg_end := 1%float; seg_text := "hi" |};
                      {| seg_start := 1%float; seg_end := 4%float; seg_text := "you" |}];
              resp_text := Some "hi you"; resp_language := None |} in
  let res := transcribe_audio_with_diarization (Ok r) None in
  duration res = 4%float /\ full_transcript res = "hi you".
Proof.
  cbv zeta.
  destruct (duration_is_last_end
              {| resp_segments :=
                   Some [{| seg_start := 0%float; seg_end := 1%float; seg_text := "hi" |};
                         {| seg_start := 1%float; seg_end := 4%float; seg_text := "you" |}];
                 resp_text := Some "hi you"; resp_language := None |}
              None _ eq_refl) as (Hres & Hlast & _ & Hfull & _).
  rewrite Hres. split.
  - apply (Hlast [{| speaker := "SPEAKER_1"; start := 0%float; end_ := 1%float;
                     text := "hi" |}]
                 {| speaker := "SPEAKER_2"; start := 1%float; end_ := 4%float;
                    text := "you" |}).
    reflexivity.
  - apply Hfull. reflexivity.
Defined.

(** C9: with a pipeline that yields no turn, any non-empty list of
    transcript segments gives the error response: exactly one segment, with
    the speaker "ERROR" and the times 0.0, the duration 0.0, the language
    "en", and the failure description as the text of the segment and as the
    full transcript.  When the times of the first segment convert to
    integers, the failure is the index into the empty list of speakers, and
    the description says "list index out of range". *)
Theorem no_turns_gives_error (r : WhisperResponse) (g : WhisperSegment)
    (rest : list WhisperSegment) :
  get_segments r = g :: rest ->
  exists e,
    let res := transcribe_audio_with_diarization (Ok r) (Some (Ok [])) in
    let msg := ("Error transcribing audio: " ++ str_of_exn e)%string in
    segments res = [{| speaker := "ERROR"; start := 0%float; end_ := 0%float;
                       text := msg |}]
    /\ full_transcript res = msg
    /\ language res = Some "en"
    /\ duration res = 0%float
    /\ (forall lo hi,
          int_of_float (seg_start g * 100)%float = Ok lo ->
          int_of_float (seg_end g * 100)%float = Ok hi ->
          e = IndexError
          /\ msg = "Error transcribing audio: list index out of range").
Proof.
  intros Hg.
  assert (H : exists e, try_body (Ok r) (Some (Ok [])) = Raise e
              /\ (forall lo hi,
                    int_of_float (seg_start g * 100)%float = Ok lo ->
                    int_of_float (seg_end g * 100)%float = Ok hi ->
                    e = IndexError)).
  { unfold try_body. simpl. rewrite Hg.
    unfold diarized_segments, build_speaker_maps, resolve_segments. simpl.
    destruct (int_of_float (seg_start g * 100)%float) as [lo|e1]; simpl.
    - destruct (int_of_float (seg_end g * 100)%float) as [hi|e2]; simpl.
      + rewrite speakers_in_range_nil. simpl. exists IndexError. auto.
      + exists e2. split; [reflexivity | discriminate].
    - exists e1. split; [reflexivity | discriminate]. }
  destruct H as (e & He & Hidx). exists e. cbv zeta.
  rewrite (transcribe_Raise _ _ _ He).
  split; [reflexivity|]. split; [reflexivity|]. split; [reflexivity|].
  split; [reflexivity|].
  intros lo hi Hlo Hhi. rewrite (Hidx lo hi Hlo Hhi). split; reflexivity.
Qed.

Lemma no_turns_gives_error_witness :
  let res := transcribe_audio_with_diarization
               (Ok {| resp_segments := Some [{| seg_start := 0%float; seg_end := 1%float;
                                                seg_text := "hello" |}];
                      resp_text := Some "hello"; resp_language := Some "en" |})
               (Some (Ok [])) in
  segments res = [{| speaker := "ERROR"; start := 0%float; end_ := 0%float;
                     text := "Error transcribing audio: list index out of range" |}]
  /\ full_transcript res = "Error transcribing audio: list index out of range"
  /\ language res = Some "en"
  /\ duration res = 0%float.
Proof.
  destruct (no_turns_gives_error
              {| resp_segments := Some [{| seg_start := 0%float; seg_end := 1%float;
                                           seg_text := "hello" |}];
                 resp_text := Some "hello"; resp_language := Some "en" |}
              {| seg_start := 0%float; seg_end := 1%float; seg_text := "hello" |} []
              eq_refl) as (e & Hseg & Hfull & Hlang & Hdur & Hidx).
  destruct (Hidx 0 100 eq_refl eq_refl) as [_ Hmsg].
  cbv zeta. rewrite Hseg, Hfull, Hmsg. repeat split; assumption.
Defined.

(** C3, as stated: [first_time] is the smallest start among the turns of the
    speaker.  It is not when a later turn of the speaker starts earlier than
    the first one yielded: here the turn 5.0-5.5 comes before the turn
    1.0-1.5, and [first_time] is 5.0. *)
Lemma first_time_is_min_counterexample :
  let d := [{| turn_start := 5%float; turn_end := 5.5%float; turn_speaker := "A" |};
            {| turn_start := 1%float; turn_end := 1.5%float; turn_speaker := "A" |}] in
  exists m sstats s,
    build_speaker_maps d = Ok (m, sstats)
    /\ stats_get sstats "A" = Some s
    /\ Some (first_time s) <> min_start (turns_of "A" d).
Proof.
  cbv zeta. do 3 eexists. split; [vm_compute; reflexivity|].
  split; [vm_compute; reflexivity|].
  intros H.
  apply (f_equal (fun o => match o with
                           | Some x => PrimFloat.eqb x 1
                           | None => false
                           end)) in H.
  vm_compute in H. discriminate.
Qed.

(** C3, amended: after the first pass, the statistics of a speaker hold as
    [first_time] the start of the first of its turns in the order the
    diarization yields them, and as [total_time] the sum of [end - start]
    over its turns, added in that order from 0; a speaker without a turn has
    no statistics.  [first_time] is the smallest start of the speaker's
    turns whenever none of its later turns starts earlier than the first. *)
Theorem stats_first_and_total (diarization : list Turn) (m : SpeakerMap)
    (sstats : SpeakerStats) :
  build_speaker_maps diarization = Ok (m, sstats) ->
  forall spk,
    stats_get sstats spk
    = match turns_of spk diarization with
      | [] => None
      | t :: _ => Some {| first_time := turn_start t;
                          total_time := speaking_time (turns_of spk diarization) |}
      end
    /\ (forall t ts,
          turns_of spk diarization = t :: ts ->
          Forall (fun u => (turn_start u <? turn_start t)%float = false) ts ->
          min_start (turns_of spk diarization) = Some (turn_start t)).
Proof.
  intros H spk. apply build_describes in H. destruct H as (Hstats & _).
  split; [apply Hstats|].
  intros t ts -> Hts. now apply min_start_first.
Qed.

Lemma stats_first_and_total_witness :
  let d := [{| turn_start := 1%float; turn_end := 1.5%float; turn_speaker := "A" |};
            {| turn_start := 2%float; turn_end := 2.25%float; turn_speaker := "B" |};
            {| turn_start := 3%float; turn_end := 3.25%float; turn_speaker := "A" |}] in
  exists m sstats,
    build_speaker_maps d = Ok (m, sstats)
    /\ stats_get sstats "A"
       = Some {| first_time := 1%float; total_time := 0.75%float |}.
Proof.
  cbv zeta. do 2 eexists.
  match goal with
  | |- ?P /\ _ => assert (Hb : P) by (vm_compute; reflexivity)
  end.
  split; [exact Hb|].
  refine (eq_trans (proj1 (stats_first_and_total _ _ _ Hb "A")) _).
  vm_compute. reflexivity.
Defined.

(** C10: when the statistics are not empty, every speaker id the resolver
    records for a segment is a key of the statistics, so that the rewrite of
    the speaker fields through the mapping finds every key and returns
    normally. *)
Theorem recorded_speakers_are_keys (diarization : list Turn)
    (segs : list WhisperSegment) (m : SpeakerMap) (sstats : SpeakerStats)
    (temp : list SpeakerSegment) :
  build_speaker_maps diarization = Ok (m, sstats) ->
  sstats <> [] ->
  resolve_segments m sstats segs = Ok temp ->
  Forall (fun s => In (speaker s) (keys sstats)) temp
  /\ Forall (fun s => exists label,
                get String.eqb (speaker_mapping sstats) (speaker s) = Some label) temp
  /\ exists out, apply_mapping (speaker_mapping sstats) temp = Ok out.
Proof.
  intros Hb _ Hr. now apply (resolved_speakers_mapped diarization segs m).
Qed.

Lemma recorded_speakers_are_keys_witness :
  let d := [{| turn_start := 0%float; turn_end := 0.5%float; turn_speaker := "A" |};
            {| turn_start := 0.5%float; turn_end := 1%float; turn_speaker := "B" |}] in
  let segs := [{| seg_start := 0%float; seg_end := 0.25%float; seg_text := "well... well" |};
               {| seg_start := 0.25%float; seg_end := 0.5%float; seg_text := "yes" |};
               {| seg_start := 2%float; seg_end := 3%float; seg_text := "after the turns" |}] in
  exists m sstats temp,
    build_speaker_maps d = Ok (m, sstats)
    /\ resolve_segments m sstats segs = Ok temp
    /\ map speaker temp = ["A"; "B"; "B"]
    /\ Forall (fun s => In (speaker s) (keys sstats)) temp.
Proof.
  cbv zeta. do 3 eexists.
  match goal with
  | |- ?P /\ _ => assert (Hb : P) by (vm_compute; reflexivity)
  end.
  split; [exact Hb|].
  match goal with
  | |- ?P /\ _ => assert (Hr : P) by (vm_compute; reflexivity)
  end.
  split; [exact Hr|].
  split; [vm_compute; reflexivity|].
  refine (proj1 (recorded_speakers_are_keys _ _ _ _ _ Hb _ Hr)).
  discriminate.
Defined.

(** C6: with [k] different speaker ids among the turns, the mapping assigns
    exactly the labels SPEAKER_1 .. SPEAKER_k, one to each of the [k]
    speakers, and every label of a normal output is one of them. *)
Theorem labels_are_dense (diarization : list Turn) (m : SpeakerMap)
    (sstats : SpeakerStats) :
  build_speaker_maps diarization = Ok (m, sstats) ->
  let k := List.length (distinct_speakers diarization) in
  map snd (speaker_mapping sstats) = map speaker_label (seq 1 k)
  /\ Permutation (keys (speaker_mapping sstats)) (distinct_speakers diarization)
  /\ (forall segs out,
        diarized_segments diarization segs = Ok out ->
        Forall (fun o => exists n, (1 <= n <= k)%nat /\ speaker o = speaker_label n) out).
Proof.
  intros Hb k. pose proof (speaker_mapping_values _ _ _ Hb) as Hvals. fold k in Hvals.
  split; [exact Hvals|]. split.
  - pose proof (build_describes _ _ Hb) as Hd.
    pose proof (stats_keys_distinct _ _ Hd) as Hperm. destruct Hd as (_ & Hnd & _).
    simpl in Hnd, Hperm. rewrite <- Hperm. now apply speaker_mapping_keys.
  - intros segs out Hout.
    destruct (diarized_segments_after_build _ _ _ _ _ Hb Hout) as (temp & _ & Hrel).
    apply relabelled_labels in Hrel. rewrite Hvals in Hrel.
    eapply Forall_impl; [|exact Hrel]. intros o Ho. simpl in Ho.
    apply in_map_iff in Ho. destruct Ho as (n & Hn & Hin).
    apply in_seq in Hin. exists n. split; [lia | now symmetry].
Qed.

Lemma labels_are_dense_witness :
  let d := [{| turn_start := 4%float; turn_end := 4.5%float; turn_speaker := "spk_b" |};
            {| turn_start := 1%float; turn_end := 1.5%float; turn_speaker := "spk_a" |};
            {| turn_start := 6%float; turn_end := 6.5%float; turn_speaker := "spk_b" |};
            {| turn_start := 2%float; turn_end := 2.5%float; turn_speaker := "spk_c" |}] in
  exists m sstats,
    build_speaker_maps d = Ok (m, sstats)
    /\ map snd (speaker_mapping sstats) = ["SPEAKER_1"; "SPEAKER_2"; "SPEAKER_3"].
Proof.
  cbv zeta. do 2 eexists.
  match goal with
  | |- ?P /\ _ => assert (Hb : P) by (vm_compute; reflexivity)
  end.
  split; [exact Hb|].
  refine (eq_trans (proj1 (labels_are_dense _ _ _ Hb)) _).
  vm_compute. reflexivity.
Defined.

(** C4, as stated: the speaker whose earliest turn starts first gets the
    smaller label number.  Not so when the diarization yields a later turn
    of a speaker before an earlier one: here A speaks first, at 0.0, but its
    turn at 5.0 is yielded first, and A gets SPEAKER_2 while B, whose only
    turn starts at 1.0, gets SPEAKER_1. *)
Lemma earliest_turn_order_counterexample :
  let d := [{| turn_start := 5%float; turn_end := 5.5%float; turn_speaker := "A" |};
            {| turn_start := 1%float; turn_end := 1.5%float; turn_speaker := "B" |};
            {| turn_start := 0%float; turn_end := 0.5%float; turn_speaker := "A" |}] in
  let r := {| resp_segments :=
                Some [{| seg_start := 0%float; seg_end := 0.5%float; seg_text := "good morning" |};
                      {| seg_start := 1%float; seg_end := 1.5%float; seg_text := "thank you" |}];
              resp_text := Some "good morning thank you";
              resp_language := None |} in
  exists m sstats,
    build_speaker_maps d = Ok (m, sstats)
    /\ min_start (turns_of "A" d) = Some 0%float
    /\ min_start (turns_of "B" d) = Some 1%float
    /\ (0 <? 1)%float = true
    /\ get String.eqb (speaker_mapping sstats) "A" = Some "SPEAKER_2"
    /\ get String.eqb (speaker_mapping sstats) "B" = Some "SPEAKER_1"
    /\ map (fun s => (speaker s, text s))
           (segments (transcribe_audio_with_diarization (Ok r) (Some (Ok d))))
       = [("SPEAKER_2", "good morning"); ("SPEAKER_1", "thank you")].
Proof.
  cbv zeta. do 2 eexists. split; [vm_compute; reflexivity|].
  repeat split; vm_compute; reflexivity.
Qed.

(** C4, amended: when the first turn the diarization yields for speaker A
    starts strictly earlier than the first turn it yields for speaker B, A
    is labelled SPEAKER_nA and B is labelled SPEAKER_nB with nA strictly
    smaller than nB; these first turns are the earliest turns of A and of B
    whenever no later turn of the same speaker starts earlier.  The number
    of a label is the index of the speaker, plus one, in the statistics
    sorted by [first_time], and every speaker field of a normal output is
    the label of the speaker the resolver recorded. *)
Theorem labels_follow_first_turn (diarization : list Turn) (m : SpeakerMap)
    (sstats : SpeakerStats) (A B : string) (tA tB : Turn) (restA restB : list Turn) :
  build_speaker_maps diarization = Ok (m, sstats) ->
  turns_of A diarization = tA :: restA ->
  turns_of B diarization = tB :: restB ->
  (turn_start tA <? turn_start tB)%float = true ->
  (exists nA nB sA sB,
      nth_error (sorted_speakers sstats) (nA - 1) = Some (A, sA)
      /\ nth_error (sorted_speakers sstats) (nB - 1) = Some (B, sB)
      /\ first_time sA = turn_start tA /\ first_time sB = turn_start tB
      /\ get String.eqb (speaker_mapping sstats) A
         = Some ("SPEAKER_" ++ str_of_nat nA)%string
      /\ get String.eqb (speaker_mapping sstats) B
         = Some ("SPEAKER_" ++ str_of_nat nB)%string
      /\ (1 <= nA < nB)%nat)
  /\ (Forall (fun u => (turn_start u <? turn_start tA)%float = false) restA ->
      min_start (turns_of A diarization) = Some (turn_start tA))
  /\ (Forall (fun u => (turn_start u <? turn_start tB)%float = false) restB ->
      min_start (turns_of B diarization) = Some (turn_start tB))
  /\ (forall segs out,
        diarized_segments diarization segs = Ok out ->
        exists temp,
          resolve_segments m sstats segs = Ok temp
          /\ relabelled (speaker_mapping sstats) temp out).
Proof.
  intros Hb HA HB Hlt. split; [|split; [|split]].
  2: { rewrite HA. apply min_start_first. }
  2: { rewrite HB. apply min_start_first. }
  - pose proof (build_describes _ _ Hb) as (Hstats & Hnd & _). simpl in Hstats, Hnd.
    pose proof (Hstats A) as HsA. pose proof (Hstats B) as HsB.
    unfold stats_of in HsA, HsB. rewrite HA in HsA. rewrite HB in HsB.
    set (sA := {| first_time := turn_start tA;
                  total_time := speaking_time (tA :: restA) |}) in *.
    set (sB := {| first_time := turn_start tB;
                  total_time := speaking_time (tB :: restB) |}) in *.
    assert (Hin : forall spk s, stats_get sstats spk = Some s ->
                    exists i, nth_error (sorted_speakers sstats) i = Some (spk, s)).
    { intros spk s Hs. apply (get_In _ str_eqb_eq) in Hs.
      apply In_nth_error.
      apply (Permutation_in _ (Permutation_sym (sorted_perm _ sstats))). exact Hs. }
    destruct (Hin _ _ HsA) as (i & Hi). destruct (Hin _ _ HsB) as (j & Hj).
    assert (Hij : (i < j)%nat).
    { apply (sorted_index_order (fun x : string * Stats => first_time (snd x))
               (sorted_speakers sstats) i j (A, sA) (B, sB)).
      - apply sorted_sorted.
      - exact Hi.
      - exact Hj.
      - exact Hlt. }
    exists (i + 1)%nat, (j + 1)%nat, sA, sB.
    replace (i + 1 - 1)%nat with i by lia. replace (j + 1 - 1)%nat with j by lia.
    repeat split; try assumption; try lia.
    + change ("SPEAKER_" ++ str_of_nat (i + 1))%string with (speaker_label (i + 1)).
      now apply speaker_mapping_nth with (st := sA).
    + change ("SPEAKER_" ++ str_of_nat (j + 1))%string with (speaker_label (j + 1)).
      now apply speaker_mapping_nth with (st := sB).
  - intros segs out. now apply diarized_segments_after_build.
Qed.

Lemma labels_follow_first_turn_witness :
  let tB := {| turn_start := 4%float; turn_end := 4.5%float; turn_speaker := "spk_b" |} in
  let tA := {| turn_start := 1%float; turn_end := 1.5%float; turn_speaker := "spk_a" |} in
  exists m sstats,
    build_speaker_maps [tB; tA] = Ok (m, sstats)
    /\ get String.eqb (speaker_mapping sstats) "spk_a" = Some "SPEAKER_1"
    /\ get String.eqb (speaker_mapping sstats) "spk_b" = Some "SPEAKER_2"
    /\ exists nA nB sA sB,
         nth_error (sorted_speakers sstats) (nA - 1) = Some ("spk_a", sA)
         /\ nth_error (sorted_speakers sstats) (nB - 1) = Some ("spk_b", sB)
         /\ first_time sA = turn_start tA /\ first_time sB = turn_start tB
         /\ get String.eqb (speaker_mapping sstats) "spk_a"
            = Some ("SPEAKER_" ++ str_of_nat nA)%string
         /\ get String.eqb (speaker_mapping sstats) "spk_b"
            = Some ("SPEAKER_" ++ str_of_nat nB)%string
         /\ (1 <= nA < nB)%nat.
Proof.
  cbv zeta. do 2 eexists.
  match goal with
  | |- ?P /\ _ => assert (Hb : P) by (vm_compute; reflexivity)
  end.
  split; [exact Hb|].
  split; [vm_compute; reflexivity|]. split; [vm_compute; reflexivity|].
  exact (proj1 (labels_follow_first_turn _ _ _ "spk_a" "spk_b" _ _ [] [] Hb
                  eq_refl eq_refl eq_refl)).
Defined.

(** C5, as stated: a completion that follows a hesitant segment goes to a
    speaker other than the previous one.  It does not when the completion
    overlaps no diarization turn: here "go now" lies between the turns of
    the two speakers and inherits the speaker of the hesitant segment. *)
Lemma hesitation_override_counterexample :
  let prev_text := "I think we should... we should" in
  let r := {| resp_segments :=
                Some [{| seg_start := 0%float; seg_end := 0.5%float;
                         seg_text := prev_text |};
                      {| seg_start := 2%float; seg_end := 2.5%float;
                         seg_text := "go now" |}];
              resp_text := Some "I think we should... we should go now";
              resp_language := Some "en" |} in
  let d := [{| turn_start := 0%float; turn_end := 0.5%float; turn_speaker := "A" |};
            {| turn_start := 5%float; turn_end := 5.5%float; turn_speaker := "B" |}] in
  hesitant prev_text = true
  /\ completes prev_text "go now" = true
  /\ map speaker (segments (transcribe_audio_with_diarization (Ok r) (Some (Ok d))))
     = ["SPEAKER_1"; "SPEAKER_1"].
Proof.
  cbv zeta. repeat split; vm_compute; reflexivity.
Qed.

(** C5, amended: let the previous text be hesitant (it contains an ellipsis
    or its last two words are the same) and the current text a completion
    (it starts, whatever the case, with the last word of the previous text,
    or has at most 4 words).  When moreover the current segment has at least
    one slot in the speaker map, the previous speaker id is not the empty
    string and the statistics have a key other than the previous speaker,
    the speaker recorded for the current segment is the first key of the
    statistics, in insertion order, other than the previous speaker; it
    differs from the previous speaker and so does its label. *)
Theorem hesitation_repair (diarization : list Turn) (m : SpeakerMap)
    (sstats : SpeakerStats) (temp : list SpeakerSegment) (prev prev_text : string)
    (g : WhisperSegment) (lo hi : Z) (other : string) (rest : list string) :
  build_speaker_maps diarization = Ok (m, sstats) ->
  int_of_float (seg_start g * 100)%float = Ok lo ->
  int_of_float (seg_end g * 100)%float = Ok hi ->
  speakers_in_range m lo hi <> [] ->
  truthy prev = true ->
  hesitant prev_text = true ->
  completes prev_text (strip (seg_text g)) = true ->
  filter (fun s => negb (s =? prev)%string) (keys sstats) = other :: rest ->
  segment_step m sstats (temp, Some prev, prev_text) g
  = Ok (temp ++ [{| speaker := other; start := seg_start g; end_ := seg_end g;
                    text := strip (seg_text g) |}],
        Some other, strip (seg_text g))
  /\ other <> prev
  /\ (forall label_prev label_other,
        get String.eqb (speaker_mapping sstats) prev = Some label_prev ->
        get String.eqb (speaker_mapping sstats) other = Some label_other ->
        label_other <> label_prev).
Proof.
  intros Hb Hlo Hhi Hsis Hprev Hh Hc Hother.
  assert (Hne : other <> prev).
  { assert (Hin : In other (filter (fun s => negb (s =? prev)%string) (keys sstats)))
      by (rewrite Hother; left; reflexivity).
    apply filter_In in Hin. destruct Hin as [_ Hin].
    apply negb_true_iff, String.eqb_neq in Hin. exact Hin. }
  split; [|split; [exact Hne|]].
  - unfold segment_step. rewrite Hlo, Hhi. simpl.
    unfold choose_speaker.
    destruct (speakers_in_range m lo hi) as [|w sis]; [contradiction|].
    destruct (most_common1_Counter w sis) as (mc & -> & _). simpl.
    rewrite (hesitant_truthy _ Hh), Hprev. simpl.
    rewrite is_completion_eq, Hh, Hc. simpl.
    unfold other_speaker. rewrite Hother. reflexivity.
  - intros label_prev label_other Hlp Hlo' Heq. subst label_other.
    apply build_describes in Hb. destruct Hb as (_ & Hnd & _). simpl in Hnd.
    apply Hne. now apply (speaker_mapping_inj sstats other prev label_prev).
Qed.

Lemma hesitation_repair_witness :
  let d := [{| turn_start := 0%float; turn_end := 0.5%float; turn_speaker := "A" |};
            {| turn_start := 0.5%float; turn_end := 1%float; turn_speaker := "B" |}] in
  let prev_text := "I think we should... we should" in
  let g := {| seg_start := 0.25%float; seg_end := 0.5%float; seg_text := " go now" |} in
  exists m sstats,
    build_speaker_maps d = Ok (m, sstats)
    /\ segment_step m sstats ([], Some "A", prev_text) g
       = Ok ([{| speaker := "B"; start := 0.25%float; end_ := 0.5%float;
                 text := "go now" |}],
             Some "B", "go now").
Proof.
  cbv zeta. do 2 eexists.
  match goal with
  | |- ?P /\ _ => assert (Hb : P) by (vm_compute; reflexivity)
  end.
  split; [exact Hb|].
  refine (proj1 (hesitation_repair _ _ _ [] "A" "I think we should... we should"
                   {| seg_start := 0.25%float; seg_end := 0.5%float;
                      seg_text := " go now" |}
                   25 50 "B" [] Hb eq_refl eq_refl _ eq_refl eq_refl eq_refl eq_refl)).
  vm_compute. discriminate.
Defined.

(** Scenario B of the specification with two diarized speakers: the
    completion goes to the second speaker. *)
Example scenario_B_two_speakers :
  let r := {| resp_segments :=
                Some [{| seg_start := 0%float; seg_end := 0.5%float;
                         seg_text := "I think we should... we should" |};
                      {| seg_start := 0.5%float; seg_end := 0.75%float;
                         seg_text := "go now" |}];
              resp_text := Some "I think we should... we should go now";
              resp_language := Some "en" |} in
  let d := [{| turn_start := 0%float; turn_end := 0.75%float; turn_speaker := "A" |};
            {| turn_start := 1%float; turn_end := 1.5%float; turn_speaker := "B" |}] in
  map speaker (segments (transcribe_audio_with_diarization (Ok r) (Some (Ok d))))
  = ["SPEAKER_1"; "SPEAKER_2"].
Proof. vm_compute. reflexivity. Qed.

(** Scenario A of the specification: on a tie of the slot counts the
    speaker met first in the segment wins. *)
Example scenario_A_tie :
  let r := {| resp_segments :=
                Some [{| seg_start := 0%float; seg_end := 4%float;
                         seg_text := "hello world" |}];
              resp_text := Some "hello world"; resp_language := Some "en" |} in
  let d := [{| turn_start := 2%float; turn_end := 4%float; turn_speaker := "SPEAKER_B" |};
            {| turn_start := 0%float; turn_end := 2%float; turn_speaker := "SPEAKER_A" |}] in
  map speaker (segments (transcribe_audio_with_diarization (Ok r) (Some (Ok d))))
  = ["SPEAKER_1"].
Proof. vm_compute. reflexivity. Qed.


(* ================================================================== *)
(** * [app/services/title_service.py] *)
(* ================================================================== *)

Module TitleService.

(** [s.split(sep)] for a separator of one character: the pieces between the
    separators, empty ones included. *)
Fixpoint split_on (sep : ascii) (s : string) : list string :=
  match s with
  | EmptyString => [EmptyString]
  | String c s' =>
      if Ascii.eqb c sep then EmptyString :: split_on sep s'
      else match split_on sep s' with
           | piece :: pieces => String c piece :: pieces
           | [] => [String c EmptyString]
           end
  end.

(** The newline character. *)
Definition newline : ascii := "010"%char.

(** Line 46: the stripped non-blank lines of the stripped content. *)
Definition parse_titles (content : string) : list string :=
  map strip
    (filter (fun line => truthy (strip line)) (split_on newline (strip content))).

(** The body of the [try] (lines 31-47).  [completion] is what the chat
    completion call gave: the [message.content] of each choice, [None] for a
    choice without content.  The result is [None] when the body raises
    (the call itself, [choices[0]] on no choice, [.strip()] on no content):
    the handler does not look at the exception. *)
Definition titles_body (completion : outcome (list (option string)))
  : option (list string) :=
  match completion with
  | Raise _ => None
  | Ok [] => None
  | Ok (None :: _) => None
  | Ok (Some content :: _) => Some (parse_titles content)
  end.

(** Lines 30-51, after the client was built. *)
Definition generate_title_suggestions (completion : outcome (list (option string)))
  : list string :=
  match titles_body completion with
  | Some titles => titles
  | None => ["Error generating title suggestions"]
  end.

(** The whole method: building the client (line 28) is outside the [try]. *)
Definition call (client : outcome unit) (completion : outcome (list (option string)))
  : outcome (list string) :=
  _ <- client ;; Ok (generate_title_suggestions completion).

(** [sep.join(l)]. *)
Fixpoint join (sep : string) (l : list string) : string :=
  match l with
  | [] => EmptyString
  | [x] => x
  | x :: l' => (x ++ sep ++ join sep l')%string
  end.

(** [c in s] for a character. *)
Fixpoint has_char (c : ascii) (s : string) : bool :=
  match s with
  | EmptyString => false
  | String a s' => Ascii.eqb a c || has_char c s'
  end.

(** A title as the service returns them: not empty, nothing to strip, on
    one line. *)
Definition clean_title (t : string) : Prop :=
  t <> EmptyString /\ strip t = t /\ has_char newline t = false.

End TitleService.

(* ================================================================== *)
(** * [app/api/endpoints/title_suggestions.py] *)
(* ================================================================== *)

(** What an endpoint gives back: the value it returns, or the
    [HTTPException] it raises. *)
Inductive response (A : Type) : Type :=
| Returned (a : A)
| HTTPException (status_code : nat) (detail : string).

Arguments Returned {A} a.
Arguments HTTPException {A} status_code detail.

Record TitleSuggestionResponse : Type := {
  suggestions : list string
}.

Module TitleEndpoint.

(** Lines 27-47.  [content] is [request.content]. *)
Definition generate_title_suggestions (content : string) (client : outcome unit)
    (completion : outcome (list (option string)))
  : response TitleSuggestionResponse :=
  if (String.length content <? 50)%nat then
    HTTPException 400
      "Blog content is too short. Please provide at least 50 characters."
  else
    match TitleService.call client completion with
    | Ok titles => Returned {| suggestions := titles |}
    | Raise e =>
        HTTPException 500
          ("Error generating title suggestions: " ++ str_of_exn e)%string
    end.

End TitleEndpoint.

(* ================================================================== *)
(** * [app/core/config.py], [app/utils/file_utils.py] and
      [app/api/endpoints/transcription.py] *)
(* ================================================================== *)

Module Config.

Definition MAX_UPLOAD_SIZE : N := 25 * 1024 * 1024.

Definition ALLOWED_AUDIO_TYPES : list string :=
  ["audio/mpeg"; "audio/mp3"; "audio/wav"; "audio/ogg"].

End Config.

(** The upload as the endpoint reads it: the content type, the file name and
    the chunks that iterating over [file.file] yields. *)
Record UploadFile : Type := {
  content_type : option string;
  filename : string;
  chunks : list string
}.

(** What the operating system answers to the calls of one request:
    [os.makedirs], [open(destination, "wb")], [shutil.copyfileobj] and
    [os.remove]. *)
Record IO : Type := {
  io_makedirs : outcome unit;
  io_open : outcome unit;
  io_copy : outcome unit;
  io_remove : outcome unit
}.

(** The files on disk, by path. *)
Definition FS : Type := list string.

Module FileUtils.

(** [file_path.exists()]. *)
Definition path_exists (fs : FS) (path : string) : bool :=
  existsb (String.eqb path) fs.

(** The disk after [open(path, "wb")] created or truncated the file. *)
Definition create (fs : FS) (path : string) : FS :=
  if path_exists fs path then fs else path :: fs.

(** The disk after [os.remove(path)]. *)
Definition unlink (fs : FS) (path : string) : FS :=
  filter (fun p => negb (p =? path)%string) fs.

Section Paths.
(** [Path(UPLOAD_DIRECTORY) / filename], as a string. *)
Variable upload_path : string -> string.

(** [save_upload_file(upload_file)], lines 21-28: the disk afterwards and
    the destination, or what was raised. *)
Definition save_upload_file (io : IO) (fs : FS) (upload_file : UploadFile)
  : FS * outcome string :=
  match io_makedirs io with
  | Raise e => (fs, Raise e)
  | Ok _ =>
      let destination := upload_path (filename upload_file) in
      match io_open io with
      | Raise e => (fs, Raise e)
      | Ok _ =>
          let fs := create fs destination in
          match io_copy io with
          | Raise e => (fs, Raise e)
          | Ok _ => (fs, Ok destination)
          end
      end
  end.
End Paths.

(** [remove_file(file_path)], lines 38-39. *)
Definition remove_file (io : IO) (fs : FS) (file_path : string) : FS * outcome unit :=
  if path_exists fs file_path then
    match io_remove io with
    | Ok _ => (unlink fs file_path, Ok tt)
    | Raise e => (fs, Raise e)
    end
  else (fs, Ok tt).

End FileUtils.

Module TranscriptionEndpoint.

(** [len(chunk)]. *)
Definition len (chunk : string) : N := N.of_nat (String.length chunk).

(** Lines 43-50: the size of the file, or the [HTTPException] of the first
    chunk that takes the size over the limit.  The detail is the f-string
    of line 49 at [MAX_UPLOAD_SIZE / 1024 / 1024 = 25.0]. *)
Fixpoint check_size (file_size : N) (chunks : list string) : response N :=
  match chunks with
  | [] => Returned file_size
  | chunk :: chunks' =>
      let file_size := (file_size + len chunk)%N in
      if (Config.MAX_UPLOAD_SIZE <? file_size)%N then
        HTTPException 413 "File too large. Maximum size: 25.0 MB"
      else check_size file_size chunks'
  end.

(** [file.content_type in ALLOWED_AUDIO_TYPES]. *)
Definition allowed (content_type : option string) : bool :=
  match content_type with
  | Some t => existsb (String.eqb t) Config.ALLOWED_AUDIO_TYPES
  | None => false
  end.

(** The call of the service method: building the client (line 48 of the
    service) is outside its [try]. *)
Definition service (client : outcome unit) (asr : outcome WhisperResponse)
    (pipeline : option (outcome (list Turn))) : outcome TranscriptionResponse :=
  _ <- client ;; Ok (transcribe_audio_with_diarization asr pipeline).

Section Paths.
Variable upload_path : string -> string.

(** [transcribe_audio(file)], lines 35-74: the disk afterwards, and the
    response, or the exception that is no [HTTPException]. *)
Definition transcribe_audio (io : IO) (fs : FS) (file : UploadFile)
    (client : outcome unit) (asr : outcome WhisperResponse)
    (pipeline : option (outcome (list Turn)))
  : FS * outcome (response TranscriptionResponse) :=
  if negb (allowed (content_type file)) then
    (fs, Ok (HTTPException 400
               ("Unsupported file format. Supported formats: "
                ++ TitleService.join ", " Config.ALLOWED_AUDIO_TYPES)%string))
  else
    match check_size 0 (chunks file) with
    | HTTPException status_code detail => (fs, Ok (HTTPException status_code detail))
    | Returned _ =>
        let '(fs, saved) := FileUtils.save_upload_file upload_path io fs file in
        match saved with
        | Raise e =>
            (fs, Ok (HTTPException 500
                       ("Error processing audio: " ++ str_of_exn e)%string))
        | Ok temp_file_path =>
            let result :=
              match service client asr pipeline with
              | Ok result => Returned result
              | Raise e =>
                  HTTPException 500 ("Error processing audio: " ++ str_of_exn e)%string
              end in
            let '(fs, removed) := FileUtils.remove_file io fs temp_file_path in
            match removed with
            | Ok _ => (fs, Ok result)
            | Raise e => (fs, Raise e)
            end
        end
    end.
End Paths.

(** The sum of the lengths of the chunks. *)
Definition total_size (chunks : list string) : N :=
  fold_right (fun chunk n => (len chunk + n)%N) 0%N chunks.

End TranscriptionEndpoint.

(* ================================================================== *)
(** * The notions the further properties are stated with *)
(* ================================================================== *)

(** One step of [Counter(l)]. *)
Definition count_step (d : dict (K := string) (V := nat)) (s : string)
  : dict (K := string) (V := nat) :=
  match get String.eqb d s with
  | Some n => set String.eqb d s (S n)
  | None => set String.eqb d s 1%nat
  end.

(** The times of the turn convert to integers. *)
Definition turn_converts (t : Turn) : Prop :=
  (exists lo, int_of_float (turn_start t * 100)%float = Ok lo)
  /\ (exists hi, int_of_float (turn_end t * 100)%float = Ok hi).

(** [a] stands before [b] in [l]. *)
Definition before {A : Type} (a b : A) (l : list A) : Prop :=
  exists l1 l2 l3, l = l1 ++ a :: l2 ++ b :: l3.

(** A request for the witnesses: an accepted upload on a disk that holds
    one other file. *)
Definition sample_upload : UploadFile :=
  {| content_type := Some "audio/wav"; filename := "talk.wav";
     chunks := ["RIFF"; "WAVE"] |}.

(** The destination of a plain file name. *)
Definition sample_path (name : string) : string := ("uploads/" ++ name)%string.

(** An operating system on which every call goes through. *)
Definition all_fine : IO :=
  {| io_makedirs := Ok tt; io_open := Ok tt; io_copy := Ok tt; io_remove := Ok tt |}.

(** An operating system on which copying the upload fails. *)
Definition disk_full : IO :=
  {| io_makedirs := Ok tt; io_open := Ok tt;
     io_copy := Raise (Upstream "No space left on device"); io_remove := Ok tt |}.

(* ================================================================== *)
(** * Further properties of the attribution *)
(* ================================================================== *)

(** ** The majority vote (lines 99-103) *)

Lemma Counter_fold (l : list string) : Counter l = fold_left count_step l [].
Proof. reflexivity. Qed.

Lemma count_step_get (d : dict (K := string) (V := nat)) (s k : string) :
  get String.eqb (count_step d s) k
  = if (s =? k)%string
    then Some (S (match get String.eqb d s with Some n => n | None => 0%nat end))
    else get String.eqb d k.
Proof.
  unfold count_step. destruct (String.eqb_spec s k) as [<-|Hne].
  - destruct (get String.eqb d s); apply (get_set_same _ str_eqb_eq).
  - destruct (get String.eqb d s); now apply (get_set_other _ str_eqb_eq).
Qed.

Lemma count_fold_get (l : list string) (acc : dict (K := string) (V := nat))
    (k : string) :
  get String.eqb (fold_left count_step l acc) k
  = match get String.eqb acc k, count_occ string_dec l k with
    | None, O => None
    | None, S n => Some (S n)
    | Some a, n => Some (a + n)%nat
    end.
Proof.
  revert acc; induction l as [|s l IH]; intros acc; simpl.
  - destruct (get String.eqb acc k); [f_equal; lia | reflexivity].
  - rewrite IH, count_step_get.
    destruct (string_dec s k) as [->|Hne].
    + rewrite String.eqb_refl.
      destruct (get String.eqb acc k); [f_equal; lia | reflexivity].
    + rewrite (proj2 (String.eqb_neq _ _) Hne). reflexivity.
Qed.

(** [Counter(l)[k]] is the number of occurrences of [k] in [l]. *)
Lemma Counter_get (l : list string) (k : string) :
  get String.eqb (Counter l) k
  = match count_occ string_dec l k with
    | O => None
    | S n => Some (S n)
    end.
Proof. rewrite Counter_fold, count_fold_get. reflexivity. Qed.

Lemma count_step_keys (d : dict (K := string) (V := nat)) (s : string) :
  keys (count_step d s)
  = keys d ++ (if mem String.eqb d s then [] else [s]).
Proof.
  unfold count_step, mem. destruct (get String.eqb d s) as [n|] eqn:E.
  - rewrite (keys_set_present _ _ _ _ _ E). now rewrite app_nil_r.
  - now rewrite (keys_set_absent _ _ _ _ E).
Qed.

Lemma count_fold_keys_prefix (l : list string) (acc : dict (K := string) (V := nat)) :
  exists more, keys (fold_left count_step l acc) = keys acc ++ more.
Proof.
  revert acc; induction l as [|s l IH]; intros acc; simpl.
  - exists []. now rewrite app_nil_r.
  - destruct (IH (count_step acc s)) as (more & ->).
    rewrite count_step_keys, <- app_assoc. eauto.
Qed.

Lemma count_fold_NoDup (l : list string) (acc : dict (K := string) (V := nat)) :
  NoDup (keys acc) -> NoDup (keys (fold_left count_step l acc)).
Proof.
  revert acc; induction l as [|s l IH]; intros acc Hnd; simpl; [assumption|].
  apply IH. unfold count_step.
  destruct (get String.eqb acc s); now apply (NoDup_keys_set _ str_eqb_eq).
Qed.

Lemma Counter_In_keys (l : list string) (k : string) :
  In k l -> In k (keys (Counter l)).
Proof.
  intros H. apply (count_occ_In string_dec) in H.
  apply (get_Some_In_keys _ str_eqb_eq) with (v := count_occ string_dec l k).
  rewrite Counter_get. destruct (count_occ string_dec l k); [lia | reflexivity].
Qed.

(** The keys of [Counter(l)] come in the order of first occurrence: what
    stands before the first [w] in [l] stands before [w] among the keys. *)
Lemma Counter_keys_order (l1 l2 : list string) (w : string) :
  ~ In w l1 ->
  exists k1 k2,
    keys (Counter (l1 ++ w :: l2)) = k1 ++ w :: k2
    /\ (forall v, In v l1 -> In v k1).
Proof.
  intros Hw. rewrite Counter_fold, fold_left_app. cbn [fold_left].
  rewrite <- (Counter_fold l1).
  destruct (count_fold_keys_prefix l2 (count_step (Counter l1) w)) as (more & ->).
  rewrite count_step_keys. unfold mem.
  assert (Hnone : get String.eqb (Counter l1) w = None).
  { apply (get_None_iff _ str_eqb_eq). intros Hin. apply Hw.
    now apply Counter_keys. }
  rewrite Hnone. exists (keys (Counter l1)), more. split.
  - now rewrite <- app_assoc.
  - intros v. apply Counter_In_keys.
Qed.

(** [max] returns the first item whose count no other item exceeds. *)
Lemma max_item_first (l pre mid : list (string * nat)) (best : string * nat) :
  (forall y, In y pre -> (snd y < snd best)%nat) ->
  (forall y, In y mid -> (snd y <= snd best)%nat) ->
  exists c1 c2,
    pre ++ best :: mid ++ l = c1 ++ max_item best l :: c2
    /\ (forall y, In y c1 -> (snd y < snd (max_item best l))%nat)
    /\ (forall y, In y c2 -> (snd y <= snd (max_item best l))%nat).
Proof.
  revert pre mid best; induction l as [|x l IH]; intros pre mid best Hpre Hmid; simpl.
  - exists pre, mid. rewrite app_nil_r. auto.
  - destruct (snd best <? snd x)%nat eqn:E.
    + apply Nat.ltb_lt in E.
      destruct (IH (pre ++ best :: mid) [] x) as (c1 & c2 & Heq & H1 & H2).
      * intros y Hy. apply in_app_or in Hy. destruct Hy as [Hy|[<-|Hy]].
        -- specialize (Hpre y Hy). lia.
        -- exact E.
        -- specialize (Hmid y Hy). lia.
      * intros y [].
      * exists c1, c2. split; [|auto].
        rewrite <- Heq. rewrite <- !app_assoc. reflexivity.
    + apply Nat.ltb_ge in E.
      destruct (IH pre (mid ++ [x]) best) as (c1 & c2 & Heq & H1 & H2).
      * exact Hpre.
      * intros y Hy. apply in_app_or in Hy. destruct Hy as [Hy|[<-|[]]]; auto.
      * exists c1, c2. split; [|auto].
        rewrite <- Heq. rewrite <- !app_assoc. reflexivity.
Qed.

Lemma NoDup_split_unique {A : Type} (a b a' b' : list A) (x : A) :
  NoDup (a ++ x :: b) -> a ++ x :: b = a' ++ x :: b' -> a = a'.
Proof.
  revert a'; induction a as [|y a IH]; intros a' Hnd Heq.
  - destruct a' as [|y' a']; [reflexivity|].
    simpl in Heq. injection Heq as <- Heq. exfalso.
    simpl in Hnd. apply NoDup_cons_iff in Hnd. apply (proj1 Hnd).
    rewrite Heq. apply in_or_app. right. left. reflexivity.
  - destruct a' as [|y' a'].
    + simpl in Heq. injection Heq as -> Heq. exfalso.
      simpl in Hnd. apply NoDup_cons_iff in Hnd. apply (proj1 Hnd).
      apply in_or_app. right. left. reflexivity.
    + simpl in Heq. injection Heq as <- Heq. f_equal.
      apply IH; [|exact Heq]. simpl in Hnd. now apply NoDup_cons_iff in Hnd.
Qed.

Lemma Counter_NoDup (l : list string) : NoDup (keys (Counter l)).
Proof. rewrite Counter_fold. apply count_fold_NoDup. constructor. Qed.

Lemma Counter_In_count (l : list string) (v : string) (c : nat) :
  In (v, c) (Counter l) -> c = count_occ string_dec l v /\ (0 < c)%nat.
Proof.
  intros H. apply (In_get_NoDup _ str_eqb_eq) in H; [|apply Counter_NoDup].
  rewrite Counter_get in H. destruct (count_occ string_dec l v); [discriminate|].
  injection H as <-. split; [reflexivity | lia].
Qed.

(** The winner of the vote with the items around it. *)
Lemma most_common1_split (c : dict (K := string) (V := nat)) (mc : string * nat) :
  most_common1 c = Ok mc ->
  exists c1 c2,
    c = c1 ++ mc :: c2
    /\ (forall y, In y c1 -> (snd y < snd mc)%nat)
    /\ (forall y, In y c2 -> (snd y <= snd mc)%nat).
Proof.
  destruct c as [|x c]; simpl; intros H; [discriminate|]. injection H as <-.
  destruct (max_item_first c [] [] x) as (c1 & c2 & Heq & H1 & H2);
    [intros y [] | intros y [] |].
  exists c1, c2. auto.
Qed.

(** X1: the speaker the vote returns occurs in the slots of the segment, the
    count returned with it is the number of its slots, and no speaker has
    more slots. *)
Theorem most_common_is_majority (speakers_in_segment : list string)
    (w : string) (n : nat) :
  most_common1 (Counter speakers_in_segment) = Ok (w, n) ->
  In w speakers_in_segment
  /\ n = count_occ string_dec speakers_in_segment w
  /\ (forall v, (count_occ string_dec speakers_in_segment v <= n)%nat).
Proof.
  intros H. apply most_common1_split in H.
  destruct H as (c1 & c2 & Heq & H1 & H2).
  assert (Hw : In (w, n) (Counter speakers_in_segment))
    by (rewrite Heq; apply in_or_app; right; left; reflexivity).
  apply Counter_In_count in Hw. destruct Hw as [Hn Hpos].
  split; [|split; [exact Hn|]].
  - apply (count_occ_In string_dec). lia.
  - intros v. destruct (count_occ string_dec speakers_in_segment v) as [|k] eqn:Ek; [lia|].
    assert (Hv : In (v, S k) (Counter speakers_in_segment)).
    { apply (get_In _ str_eqb_eq). rewrite Counter_get, Ek. reflexivity. }
    rewrite Heq in Hv. apply in_app_or in Hv. destruct Hv as [Hv|[Hv|Hv]].
    + specialize (H1 _ Hv). simpl in H1. lia.
    + injection Hv as _ <-. lia.
    + specialize (H2 _ Hv). simpl in H2. exact H2.
Qed.

Lemma most_common_is_majority_witness :
  In "B" ["A"; "B"; "B"; "A"; "B"]
  /\ 3%nat = count_occ string_dec ["A"; "B"; "B"; "A"; "B"] "B"
  /\ (forall v, (count_occ string_dec ["A"; "B"; "B"; "A"; "B"] v <= 3)%nat).
Proof.
  apply (most_common_is_majority ["A"; "B"; "B"; "A"; "B"] "B" 3). reflexivity.
Defined.

(** X2: on a tie the speaker met first in the segment wins: every speaker
    met before the first slot of the winner has strictly fewer slots. *)
Theorem most_common_tie_goes_to_first (l1 l2 : list string) (w : string) (n : nat) :
  most_common1 (Counter (l1 ++ w :: l2)) = Ok (w, n) ->
  ~ In w l1 ->
  forall v, In v l1 -> (count_occ string_dec (l1 ++ w :: l2) v < n)%nat.
Proof.
  intros H Hw v Hv. apply most_common1_split in H.
  destruct H as (c1 & c2 & Heq & H1 & _).
  destruct (Counter_keys_order l1 l2 w Hw) as (k1 & k2 & Hkeys & Hk1).
  assert (Hc1 : map fst c1 = k1).
  { apply (NoDup_split_unique _ (map fst c2) _ k2 w).
    - pose proof (Counter_NoDup (l1 ++ w :: l2)) as Hnd.
      rewrite Heq in Hnd. unfold keys in Hnd. now rewrite map_app in Hnd.
    - rewrite <- Hkeys, Heq. unfold keys. now rewrite map_app. }
  apply Hk1 in Hv. rewrite <- Hc1 in Hv. apply in_map_iff in Hv.
  destruct Hv as ([v' c] & Hfst & Hin). simpl in Hfst. subst v'.
  specialize (H1 _ Hin). simpl in H1.
  assert (Hc : In (v, c) (Counter (l1 ++ w :: l2)))
    by (rewrite Heq; apply in_or_app; left; exact Hin).
  apply Counter_In_count in Hc. destruct Hc as [-> _]. exact H1.
Qed.

Lemma most_common_tie_goes_to_first_witness :
  most_common1 (Counter (["C"] ++ "A" :: ["B"; "B"; "A"])) = Ok ("A", 2%nat)
  /\ (count_occ string_dec (["C"] ++ "A" :: ["B"; "B"; "A"]) "C" < 2)%nat.
Proof.
  split; [reflexivity|].
  apply (most_common_tie_goes_to_first ["C"] ["B"; "B"; "A"] "A" 2).
  - reflexivity.
  - intros [H|[]]. discriminate H.
  - left. reflexivity.
Defined.

(** ** Which exceptions the diarization branch raises, and when *)

Lemma int_of_float_Raise (x : float) (e : exn) :
  int_of_float x = Raise e -> e = ValueError \/ e = OverflowError.
Proof.
  unfold int_of_float. destruct (Prim2SF x); intros H; try discriminate;
    injection H as <-; auto.
Qed.

Lemma int_pair_cases (x y : float) :
  match int_of_float (x * 100)%float, int_of_float (y * 100)%float with
  | Ok _, Ok _ => True
  | Ok _, Raise e | Raise e, _ =>
      (e = ValueError \/ e = OverflowError)
      /\ ~ ((exists lo, int_of_float (x * 100)%float = Ok lo)
            /\ (exists hi, int_of_float (y * 100)%float = Ok hi))
  end.
Proof.
  destruct (int_of_float (x * 100)%float) as [lo|e1] eqn:E1.
  - destruct (int_of_float (y * 100)%float) as [hi|e2] eqn:E2; [exact I|].
    split; [now apply int_of_float_Raise in E2|].
    intros (_ & hi & Hhi). discriminate.
  - split; [now apply int_of_float_Raise in E1|].
    intros ((lo & Hlo) & _). discriminate.
Qed.

Lemma turn_step_cases (st : SpeakerMap * SpeakerStats) (tr : Turn) :
  match turn_step st tr with
  | Ok _ => turn_converts tr
  | Raise e => (e = ValueError \/ e = OverflowError) /\ ~ turn_converts tr
  end.
Proof.
  destruct st as [m sstats]. unfold turn_step, turn_converts. cbv zeta.
  pose proof (int_pair_cases (turn_start tr) (turn_end tr)) as Hc.
  assert (Hget : forall d : SpeakerStats,
            (exists s, get String.eqb d (turn_speaker tr) = Some s) ->
            exists s, getitem d (turn_speaker tr) = Ok s).
  { intros d (s & Hs). unfold getitem. rewrite Hs. eauto. }
  destruct (mem String.eqb sstats (turn_speaker tr)) eqn:Em.
  - destruct (Hget sstats) as (s & ->).
    { unfold mem in Em. destruct (get String.eqb sstats (turn_speaker tr)); eauto.
      discriminate. }
    simpl.
    destruct (int_of_float (turn_start tr * 100)%float) as [lo|e1]; simpl; [|exact Hc].
    destruct (int_of_float (turn_end tr * 100)%float) as [hi|e2]; simpl; [eauto|exact Hc].
  - destruct (Hget (stats_set sstats (turn_speaker tr)
                      {| first_time := turn_start tr; total_time := 0%float |}))
      as (s & ->).
    { unfold stats_set. rewrite (get_set_same _ str_eqb_eq). eauto. }
    simpl.
    destruct (int_of_float (turn_start tr * 100)%float) as [lo|e1]; simpl; [|exact Hc].
    destruct (int_of_float (turn_end tr * 100)%float) as [hi|e2]; simpl; [eauto|exact Hc].
Qed.

Lemma choose_speaker_Raise (sstats : SpeakerStats) (prev : option string)
    (prev_text : string) (sis : list string) (text : string) (e : exn) :
  choose_speaker sstats prev prev_text sis text = Raise e ->
  e = IndexError /\ sstats = [].
Proof.
  destruct sstats as [|kv sstats].
  - unfold choose_speaker. destruct sis as [|w sis].
    + destruct prev as [p|]; [destruct (truthy p)|]; simpl; intros H;
        try discriminate; injection H as <-; auto.
    + destruct (most_common1_Counter w sis) as (mc & -> & _). simpl.
      destruct prev as [p|]; [|discriminate].
      destruct (truthy prev_text && truthy p); [|discriminate].
      rewrite is_completion_eq. simpl.
      destruct (hesitant prev_text && completes prev_text text); discriminate.
  - intros H.
    destruct (choose_speaker_total (kv :: sstats) prev prev_text sis text)
      as (spk & Hspk); [discriminate|]. congruence.
Qed.

Lemma segment_step_cases (m : SpeakerMap) (sstats : SpeakerStats)
    (st : ResolverState) (g : WhisperSegment) :
  match segment_step m sstats st g with
  | Ok _ => times_convert g
  | Raise e =>
      ((e = ValueError \/ e = OverflowError) /\ ~ times_convert g)
      \/ (e = IndexError /\ sstats = [])
  end.
Proof.
  destruct st as [[temp prev] prev_text]. unfold segment_step, times_convert.
  pose proof (int_pair_cases (seg_start g) (seg_end g)) as Hc.
  destruct (int_of_float (seg_start g * 100)%float) as [lo|e1]; simpl; [|left; exact Hc].
  destruct (int_of_float (seg_end g * 100)%float) as [hi|e2]; simpl; [|left; exact Hc].
  destruct (choose_speaker sstats prev prev_text (speakers_in_range m lo hi)
              (strip (seg_text g))) as [spk|e] eqn:E; simpl.
  - eauto.
  - right. now apply choose_speaker_Raise in E.
Qed.

(** A loop ends normally exactly when every step does; otherwise it raises
    what one of its steps raised. *)
Lemma for_each_cases {A S : Type} (body : S -> A -> outcome S) (l : list A) (s : S) :
  match for_each body l s with
  | Ok _ => Forall (fun a => exists s0 s1, body s0 a = Ok s1) l
  | Raise e => exists s0 a, In a l /\ body s0 a = Raise e
  end.
Proof.
  revert s; induction l as [|a l IH]; intros s; simpl; [constructor|].
  destruct (body s a) as [s1|e] eqn:E; simpl.
  - specialize (IH s1). destruct (for_each body l s1).
    + constructor; eauto.
    + destruct IH as (s0 & a' & Hin & Hr). eauto 6.
  - eauto 6.
Qed.

Lemma build_cases (diarization : list Turn) :
  match build_speaker_maps diarization with
  | Ok _ => Forall turn_converts diarization
  | Raise e =>
      (e = ValueError \/ e = OverflowError) /\ ~ Forall turn_converts diarization
  end.
Proof.
  unfold build_speaker_maps.
  pose proof (for_each_cases turn_step diarization ([], [])) as H.
  destruct (for_each turn_step diarization ([], [])) as [st|e].
  - eapply Forall_impl; [|exact H]. intros t (s0 & s1 & Ht).
    pose proof (turn_step_cases s0 t) as Hc. now rewrite Ht in Hc.
  - destruct H as (s0 & t & Hin & Ht).
    pose proof (turn_step_cases s0 t) as Hc. rewrite Ht in Hc.
    destruct Hc as [He Hn]. split; [exact He|].
    intros Hall. rewrite Forall_forall in Hall. auto.
Qed.

Lemma build_stats_nil (diarization : list Turn) (m : SpeakerMap) (sstats : SpeakerStats) :
  build_speaker_maps diarization = Ok (m, sstats) ->
  sstats = [] <-> diarization = [].
Proof.
  intros Hb. apply build_describes in Hb. split.
  - intros ->. destruct diarization as [|t d]; [reflexivity|].
    assert (Hin : In (turn_speaker t) (keys (snd (m, @nil (string * Stats))))).
    { apply (stats_keys_iff (t :: d) _ _ Hb). left. reflexivity. }
    destruct Hin.
  - intros ->. destruct sstats as [|[k v] sstats]; [reflexivity|].
    assert (Hin : In k (map turn_speaker [])).
    { apply (stats_keys_iff [] (m, (k, v) :: sstats) _ Hb). left. reflexivity. }
    destruct Hin.
Qed.

Lemma resolve_cases (m : SpeakerMap) (sstats : SpeakerStats)
    (segs : list WhisperSegment) :
  match resolve_segments m sstats segs with
  | Ok _ => Forall times_convert segs
  | Raise e =>
      segs <> [] /\
      (((e = ValueError \/ e = OverflowError) /\ ~ Forall times_convert segs)
       \/ (e = IndexError /\ sstats = []))
  end.
Proof.
  unfold resolve_segments.
  pose proof (for_each_cases (segment_step m sstats) segs ([], None, "")) as H.
  destruct (for_each (segment_step m sstats) segs ([], None, "")) as [st|e]; simpl.
  - eapply Forall_impl; [|exact H]. intros g (s0 & s1 & Hg).
    pose proof (segment_step_cases m sstats s0 g) as Hc. now rewrite Hg in Hc.
  - destruct H as (s0 & g & Hin & Hg).
    split; [intros ->; destruct Hin|].
    pose proof (segment_step_cases m sstats s0 g) as Hc. rewrite Hg in Hc.
    destruct Hc as [[He Hn]|Hc]; [left | right; exact Hc].
    split; [exact He|]. intros Hall. rewrite Forall_forall in Hall. auto.
Qed.

(** X3: when the transcription call returns a well-formed response (its
    segments a list of items with numeric times and a string for text, its
    text and language strings when present) and the diarization call
    returns, the body of the service raises nothing but what [int()] raises
    on a time whose hundredfold is NaN or infinite, or [IndexError] when the
    diarization has no turn and there is a transcript segment; it never
    raises [KeyError].  (The embedding has a range of any length as a list:
    running out of memory is left out.) *)
Theorem engine_failure_kinds (r : WhisperResponse) (segs : list WhisperSegment)
    (diarization : list Turn) (e : exn) :
  resp_segments r = Some segs ->
  try_body (Ok r) (Some (Ok diarization)) = Raise e ->
  ((e = ValueError \/ e = OverflowError)
   /\ ~ (Forall turn_converts diarization /\ Forall times_convert segs))
  \/ (e = IndexError /\ diarization = [] /\ segs <> []).
Proof.
  intros Hsegs.
  assert (Hget : get_segments r = segs) by (unfold get_segments; now rewrite Hsegs).
  unfold try_body. simpl. rewrite Hget. unfold diarized_segments.
  pose proof (build_cases diarization) as Hb.
  destruct (build_speaker_maps diarization) as [[m sstats]|e0] eqn:Eb; simpl.
  - pose proof (resolve_cases m sstats segs) as Hr.
    destruct (resolve_segments m sstats segs) as [temp|e1] eqn:Er; simpl.
    + destruct (resolved_speakers_mapped _ _ _ _ _ Eb Er) as (_ & _ & out & ->).
      discriminate.
    + intros H. injection H as <-. destruct Hr as [Hne [[He Hn]|[He Hs]]].
      * left. split; [exact He | tauto].
      * right. split; [exact He|]. split; [|exact Hne].
        now apply (build_stats_nil _ _ _ Eb).
  - intros H. injection H as <-. left. destruct Hb as [He Hn]. split; [exact He | tauto].
Qed.

Lemma engine_failure_kinds_witness :
  let segs := [{| seg_start := 0%float; seg_end := infinity; seg_text := "hello" |}] in
  let r := {| resp_segments := Some segs;
              resp_text := Some "hello"; resp_language := None |} in
  let d := [{| turn_start := 0%float; turn_end := 1%float; turn_speaker := "A" |}] in
  try_body (Ok r) (Some (Ok d)) = Raise OverflowError
  /\ (((OverflowError = ValueError \/ OverflowError = OverflowError)
       /\ ~ (Forall turn_converts d /\ Forall times_convert segs))
      \/ (OverflowError = IndexError /\ d = [] /\ segs <> [])).
Proof.
  cbv zeta.
  match goal with
  | |- ?P /\ _ => assert (H : P) by (vm_compute; reflexivity)
  end.
  split; [exact H|].
  refine (engine_failure_kinds _ _ _ _ _ H). reflexivity.
Defined.

(** X4: when the transcription call returns a well-formed response (its
    segments a list) and the diarization call returns, the body of the
    service returns normally only if the hundredfold of every turn time and
    of every segment time converts to an integer and there is a turn or
    there is no segment: a time that is NaN or infinite, or a segment
    without any turn, always ends in the handler. *)
Theorem normal_return_needs_finite_times (r : WhisperResponse)
    (segs : list WhisperSegment) (diarization : list Turn)
    (res : TranscriptionResponse) :
  resp_segments r = Some segs ->
  try_body (Ok r) (Some (Ok diarization)) = Ok res ->
  Forall turn_converts diarization
  /\ Forall times_convert segs
  /\ (diarization <> [] \/ segs = []).
Proof.
  intros Hsegs H.
  assert (Hget : get_segments r = segs) by (unfold get_segments; now rewrite Hsegs).
  apply try_body_Ok in H.
  destruct H as (r' & Hr & (d & Hd & Hout) & _).
  injection Hr as <-. injection Hd as <-. rewrite Hget in Hout.
  unfold diarized_segments in Hout.
  pose proof (build_cases diarization) as Hb.
  destruct (build_speaker_maps diarization) as [[m sstats]|e0] eqn:Eb;
    [|discriminate]. simpl in Hout.
  pose proof (resolve_cases m sstats segs) as Hres.
  destruct (resolve_segments m sstats segs) as [temp|e1] eqn:Er; [|discriminate].
  split; [exact Hb|]. split; [exact Hres|].
  destruct diarization as [|t d']; [right | left; discriminate].
  destruct segs as [|g segs']; [reflexivity|]. exfalso.
  vm_compute in Eb. injection Eb as <- <-.
  unfold resolve_segments in Er. simpl in Er.
  inversion Hres as [|? ? [(lo & Hlo) (hi & Hhi)] _]; subst.
  unfold segment_step in Er. rewrite Hlo, Hhi in Er. simpl in Er.
  rewrite speakers_in_range_nil in Er. discriminate.
Qed.

Lemma normal_return_needs_finite_times_witness :
  let segs := [{| seg_start := 0%float; seg_end := 0.5%float; seg_text := "hello" |};
               {| seg_start := 0.5%float; seg_end := 1%float; seg_text := "you" |}] in
  let r := {| resp_segments := Some segs;
              resp_text := Some "hello you"; resp_language := None |} in
  let d := [{| turn_start := 0%float; turn_end := 1%float; turn_speaker := "A" |}] in
  exists res,
    try_body (Ok r) (Some (Ok d)) = Ok res
    /\ Forall turn_converts d
    /\ Forall times_convert segs
    /\ (d <> [] \/ segs = []).
Proof.
  cbv zeta. eexists.
  match goal with
  | |- ?P /\ _ => assert (H : P) by (vm_compute; reflexivity)
  end.
  split; [exact H|].
  refine (normal_return_needs_finite_times _ _ _ _ _ H). reflexivity.
Defined.

(** ** Labels and speakers *)

(** Proves the left part of a conjunction by evaluation and keeps it as [H]. *)
Ltac settle_left H :=
  match goal with
  | |- ?P /\ _ => assert (H : P) by (vm_compute; reflexivity); split; [exact H|]
  end.

Lemma Forall2_nth_error {A B : Type} (P : A -> B -> Prop) (l : list A) (l' : list B)
    (i : nat) (a : A) (b : B) :
  Forall2 P l l' -> nth_error l i = Some a -> nth_error l' i = Some b -> P a b.
Proof.
  intros H; revert i; induction H as [|x y l l' Hxy _ IH]; intros i Ha Hb.
  - destruct i; discriminate.
  - destruct i as [|i]; simpl in Ha, Hb.
    + injection Ha as <-. injection Hb as <-. exact Hxy.
    + eauto.
Qed.

(** X5: the normalization neither merges nor splits speakers: two output
    segments carry the same label exactly when the resolver gave the two
    segments the same speaker id. *)
Theorem labels_identify_speakers (diarization : list Turn) (segs : list WhisperSegment)
    (m : SpeakerMap) (sstats : SpeakerStats) (temp out : list SpeakerSegment)
    (i j : nat) (ti tj oi oj : SpeakerSegment) :
  build_speaker_maps diarization = Ok (m, sstats) ->
  resolve_segments m sstats segs = Ok temp ->
  diarized_segments diarization segs = Ok out ->
  nth_error temp i = Some ti -> nth_error temp j = Some tj ->
  nth_error out i = Some oi -> nth_error out j = Some oj ->
  (speaker oi = speaker oj <-> speaker ti = speaker tj).
Proof.
  intros Hb Hr Hout Hti Htj Hoi Hoj.
  destruct (diarized_segments_after_build _ _ _ _ _ Hb Hout) as (temp' & Hr' & Hrel).
  rewrite Hr in Hr'. injection Hr' as <-.
  destruct (Forall2_nth_error _ _ _ _ _ _ Hrel Hti Hoi) as [Hi _].
  destruct (Forall2_nth_error _ _ _ _ _ _ Hrel Htj Hoj) as [Hj _].
  apply build_describes in Hb. destruct Hb as (_ & Hnd & _). simpl in Hnd.
  split.
  - intros Heq. rewrite Heq in Hi.
    exact (speaker_mapping_inj sstats _ _ _ Hnd Hi Hj).
  - intros Heq. rewrite Heq in Hi. congruence.
Qed.

Lemma labels_identify_speakers_witness :
  let d := [{| turn_start := 0%float; turn_end := 0.5%float; turn_speaker := "x" |};
            {| turn_start := 0.5%float; turn_end := 1%float; turn_speaker := "y" |}] in
  let segs := [{| seg_start := 0%float; seg_end := 0.25%float; seg_text := "one" |};
               {| seg_start := 0.5%float; seg_end := 0.75%float;
                  seg_text := "a much longer second segment" |};
               {| seg_start := 0.25%float; seg_end := 0.5%float;
                  seg_text := "and a third segment of the first" |}] in
  exists m sstats temp out t0 t2 o0 o2,
    build_speaker_maps d = Ok (m, sstats)
    /\ resolve_segments m sstats segs = Ok temp
    /\ diarized_segments d segs = Ok out
    /\ nth_error temp 0 = Some t0 /\ nth_error temp 2 = Some t2
    /\ nth_error out 0 = Some o0 /\ nth_error out 2 = Some o2
    /\ (speaker o0 = speaker o2 <-> speaker t0 = speaker t2).
Proof.
  cbv zeta. do 8 eexists.
  settle_left Hb. settle_left Hr. settle_left Ho.
  settle_left H0. settle_left H2. settle_left H0'. settle_left H2'.
  exact (labels_identify_speakers _ _ _ _ _ _ 0 2 _ _ _ _ Hb Hr Ho H0 H2 H0' H2').
Defined.

Lemma NoDup_constant_length {A : Type} (l : list A) (a : A) :
  NoDup l -> (forall x, In x l -> x = a) -> (List.length l <= 1)%nat.
Proof.
  intros Hnd Hall. destruct l as [|x [|y l]]; simpl; try lia.
  exfalso. inversion Hnd as [|? ? Hnotin _]; subst. apply Hnotin.
  rewrite (Hall x), (Hall y); simpl; auto.
Qed.

(** X6: when every turn of the diarization has the same speaker id, every
    segment of a normal output is labelled SPEAKER_1. *)
Theorem single_speaker_is_speaker_1 (diarization : list Turn)
    (segs : list WhisperSegment) (out : list SpeakerSegment) (spk : string) :
  (forall t, In t diarization -> turn_speaker t = spk) ->
  diarized_segments diarization segs = Ok out ->
  Forall (fun o => speaker o = "SPEAKER_1") out.
Proof.
  intros Hall Hout.
  destruct (diarized_segments_Ok _ _ _ Hout) as (m & sstats & temp & Hb & _ & Hrel).
  apply relabelled_labels in Hrel.
  rewrite (speaker_mapping_values _ _ _ Hb) in Hrel.
  assert (Hk : (List.length (distinct_speakers diarization) <= 1)%nat).
  { apply (NoDup_constant_length _ spk); [apply NoDup_nodup|].
    intros x Hx. unfold distinct_speakers in Hx. apply nodup_In in Hx.
    apply in_map_iff in Hx. destruct Hx as (t & <- & Ht). auto. }
  eapply Forall_impl; [|exact Hrel]. intros o Ho. simpl in Ho.
  destruct (List.length (distinct_speakers diarization)) as [|[|k]];
    simpl in Ho; [destruct Ho | | lia].
  destruct Ho as [Ho|[]]. now symmetry.
Qed.

Lemma single_speaker_is_speaker_1_witness :
  let d := [{| turn_start := 0.5%float; turn_end := 1%float; turn_speaker := "SPEAKER_07" |};
            {| turn_start := 2%float; turn_end := 2.5%float; turn_speaker := "SPEAKER_07" |}] in
  let segs := [{| seg_start := 0%float; seg_end := 1%float; seg_text := "hello" |};
               {| seg_start := 1%float; seg_end := 3%float; seg_text := "again" |}] in
  exists out,
    diarized_segments d segs = Ok out
    /\ Forall (fun o => speaker o = "SPEAKER_1") out.
Proof.
  cbv zeta. eexists.
  match goal with
  | |- ?P /\ _ => assert (Ho : P) by (vm_compute; reflexivity)
  end.
  split; [exact Ho|].
  refine (single_speaker_is_speaker_1 _ _ _ "SPEAKER_07" _ Ho).
  intros t [<-|[<-|[]]]; reflexivity.
Defined.

(** X7: unless the previous text is hesitant and the text a completion, the
    vote decides: the segment goes to the speaker the vote returns. *)
Theorem vote_stands_without_hesitation (sstats : SpeakerStats) (prev : option string)
    (prev_text text : string) (speakers_in_segment : list string)
    (w : string) (n : nat) :
  most_common1 (Counter speakers_in_segment) = Ok (w, n) ->
  hesitant prev_text && completes prev_text text = false ->
  choose_speaker sstats prev prev_text speakers_in_segment text = Ok w.
Proof.
  intros Hmc Hno. unfold choose_speaker.
  destruct speakers_in_segment as [|s sis]; [discriminate|].
  rewrite Hmc. simpl. destruct prev as [p|]; [|reflexivity].
  destruct (truthy prev_text && truthy p); [|reflexivity].
  rewrite is_completion_eq, Hno. reflexivity.
Qed.

Lemma vote_stands_without_hesitation_witness :
  choose_speaker [("A", {| first_time := 0%float; total_time := 1%float |});
                  ("B", {| first_time := 1%float; total_time := 1%float |})]
    (Some "B") "we should go now" ["A"; "A"; "B"] "yes"
  = Ok "A".
Proof.
  apply (vote_stands_without_hesitation _ _ _ _ _ "A" 2); reflexivity.
Defined.

(** ** Segments outside every turn *)

Lemma for_each_invariant_Forall {A S : Type} (body : S -> A -> outcome S)
    (P : S -> Prop) (Q : A -> Prop) :
  (forall s a s', Q a -> P s -> body s a = Ok s' -> P s') ->
  forall l s s', Forall Q l -> P s -> for_each body l s = Ok s' -> P s'.
Proof.
  intros Hstep l; induction l as [|a l IH]; simpl; intros s s' Hl Hs H.
  - injection H as <-. exact Hs.
  - inv_bind H. inversion Hl as [|? ? Ha Hl']; subst. eauto.
Qed.

(** A turn adds its speaker after the keys already there, or adds none. *)
Lemma turn_step_keys (m m' : SpeakerMap) (sstats sstats' : SpeakerStats) (tr : Turn) :
  turn_step (m, sstats) tr = Ok (m', sstats') ->
  keys sstats'
  = keys sstats ++ (if mem String.eqb sstats (turn_speaker tr) then []
                    else [turn_speaker tr]).
Proof.
  unfold turn_step. cbv zeta. intros H.
  inv_bind H. inv_bind H. inv_bind H. injection H as _ <-.
  unfold getitem in Hstep. unfold stats_set.
  destruct (mem String.eqb sstats (turn_speaker tr)) eqn:Em.
  - destruct (get String.eqb sstats (turn_speaker tr)) as [s|] eqn:Es; [|discriminate].
    rewrite (keys_set_present _ _ _ _ _ Es). now rewrite app_nil_r.
  - unfold mem in Em.
    destruct (get String.eqb sstats (turn_speaker tr)) as [s|] eqn:Es; [discriminate|].
    unfold stats_set in Hstep.
    destruct (get String.eqb (set String.eqb sstats (turn_speaker tr) _) _)
      as [s|] eqn:Es'; [|discriminate].
    rewrite (keys_set_present _ _ _ _ _ Es'). now apply keys_set_absent.
Qed.

(** The first key of the statistics is the speaker of the first turn. *)
Lemma build_first_key (t : Turn) (d : list Turn) (m : SpeakerMap) (sstats : SpeakerStats) :
  build_speaker_maps (t :: d) = Ok (m, sstats) ->
  exists rest, keys sstats = turn_speaker t :: rest.
Proof.
  unfold build_speaker_maps. cbn [for_each]. intros H. inv_bind H.
  destruct a as [m1 s1]. apply turn_step_keys in Hstep. simpl in Hstep.
  assert (Hinv : forall s a s',
            (exists rest, keys (snd s) = turn_speaker t :: rest) ->
            turn_step s a = Ok s' ->
            exists rest, keys (snd s') = turn_speaker t :: rest).
  { intros [ma sa] a [mb sb] (rest & Hrest) Hab. apply turn_step_keys in Hab.
    simpl in *. rewrite Hab, Hrest. simpl. eauto. }
  apply (for_each_invariant turn_step _ Hinv d (m1, s1) (m, sstats)); [|exact H].
  simpl. rewrite Hstep. eauto.
Qed.

(** X8: the segments that meet no slot of the speaker map all go to the
    speaker of the first turn the diarization yielded: a run of the
    resolver in which no segment meets a slot gives every segment that
    speaker. *)
Theorem no_overlap_goes_to_first_speaker (t : Turn) (d : list Turn) (m : SpeakerMap)
    (sstats : SpeakerStats) (segs : list WhisperSegment) (temp : list SpeakerSegment) :
  build_speaker_maps (t :: d) = Ok (m, sstats) ->
  Forall (fun g => forall lo hi,
            int_of_float (seg_start g * 100)%float = Ok lo ->
            int_of_float (seg_end g * 100)%float = Ok hi ->
            speakers_in_range m lo hi = []) segs ->
  resolve_segments m sstats segs = Ok temp ->
  Forall (fun s => speaker s = turn_speaker t) temp.
Proof.
  intros Hb Hsegs Hr. destruct (build_first_key _ _ _ _ Hb) as (rest & Hkeys).
  unfold resolve_segments in Hr. inv_bind Hr. injection Hr as <-.
  set (P := fun st : ResolverState =>
              Forall (fun s => speaker s = turn_speaker t) (fst (fst st))
              /\ (snd (fst st) = None \/ snd (fst st) = Some (turn_speaker t))).
  assert (HP : P a).
  { refine (for_each_invariant_Forall (segment_step m sstats) P _ _ segs
              ([], None, "") a Hsegs _ Hstep).
    - intros [[tmp prev] ptxt] g st' Hg [Htmp Hprev] Hst. simpl in Htmp, Hprev.
      unfold segment_step in Hst. inv_bind Hst. inv_bind Hst. inv_bind Hst.
      injection Hst as <-. rewrite (Hg _ _ Hstep0 Hstep1) in Hstep2.
      assert (Hspk : a2 = turn_speaker t).
      { unfold choose_speaker in Hstep2. rewrite Hkeys in Hstep2. simpl in Hstep2.
        destruct Hprev as [->| ->]; [congruence|].
        destruct (truthy (turn_speaker t)); congruence. }
      subst a2. split; simpl; [|auto].
      apply Forall_app. split; [exact Htmp|]. constructor; [reflexivity | constructor].
    - split; simpl; [constructor | auto]. }
  exact (proj1 HP).
Qed.

Lemma no_overlap_goes_to_first_speaker_witness :
  let t := {| turn_start := 5%float; turn_end := 5.5%float; turn_speaker := "late" |} in
  let d := [{| turn_start := 1%float; turn_end := 1.5%float; turn_speaker := "early" |}] in
  let segs := [{| seg_start := 2%float; seg_end := 3%float; seg_text := "between" |};
               {| seg_start := 3%float; seg_end := 4%float; seg_text := "the turns" |}] in
  exists m sstats temp,
    build_speaker_maps (t :: d) = Ok (m, sstats)
    /\ resolve_segments m sstats segs = Ok temp
    /\ Forall (fun s => speaker s = "late") temp.
Proof.
  cbv zeta. do 3 eexists. settle_left Hb. settle_left Hr.
  refine (no_overlap_goes_to_first_speaker _ _ _ _ _ _ Hb _ Hr).
  repeat constructor; intros lo hi Hlo Hhi;
    vm_compute in Hlo; vm_compute in Hhi;
    injection Hlo as <-; injection Hhi as <-; vm_compute; reflexivity.
Defined.

(** ** The text of the output *)

Lemma lstrip_idempotent (s : string) : lstrip (lstrip s) = lstrip s.
Proof.
  induction s as [|c s IH]; simpl; [reflexivity|].
  destruct (isspace c) eqn:E; [exact IH|]. simpl. now rewrite E.
Qed.

Lemma rstrip_idempotent (s : string) : rstrip (rstrip s) = rstrip s.
Proof.
  induction s as [|c s IH]; simpl; [reflexivity|].
  destruct (rstrip s) as [|c' r] eqn:E.
  - destruct (isspace c) eqn:Ec; simpl; [reflexivity|]. now rewrite Ec.
  - simpl in IH. simpl. rewrite IH. reflexivity.
Qed.

(** Stripping the right end leaves a stripped left end alone. *)
Lemma lstrip_rstrip (s : string) : lstrip s = s -> lstrip (rstrip s) = rstrip s.
Proof.
  destruct s as [|c s]; simpl; [reflexivity|].
  destruct (isspace c) eqn:E.
  - intros H. exfalso.
    assert (Hlen : forall x, (String.length (lstrip x) <= String.length x)%nat).
    { induction x as [|a x IHx]; simpl; [lia|]. destruct (isspace a); simpl; lia. }
    specialize (Hlen s). rewrite H in Hlen. simpl in Hlen. lia.
  - intros _. destruct (rstrip s); simpl; now rewrite E.
Qed.

Lemma strip_idempotent (s : string) : strip (strip s) = strip s.
Proof.
  unfold strip. rewrite (lstrip_rstrip (lstrip s) (lstrip_idempotent s)).
  apply rstrip_idempotent.
Qed.

(** X9: in every response the body of the service returns normally, on the
    diarization path as on the fallback path, the text of every segment
    has no whitespace left at either end: stripping it again changes
    nothing. *)
Theorem output_text_is_stripped (r : WhisperResponse)
    (pipeline : option (outcome (list Turn))) (res : TranscriptionResponse) :
  try_body (Ok r) pipeline = Ok res ->
  Forall (fun s => strip (text s) = text s) (segments res).
Proof.
  intros H. apply try_body_payload in H.
  assert (Htexts : map text (segments res)
                   = map (fun g => strip (seg_text g)) (get_segments r)).
  { apply (f_equal (map snd)) in H. now rewrite !map_map in H. }
  apply Forall_forall. intros s Hs.
  apply (in_map text) in Hs. rewrite Htexts in Hs. apply in_map_iff in Hs.
  destruct Hs as (g & <- & _). apply strip_idempotent.
Qed.

Lemma output_text_is_stripped_witness :
  let r := {| resp_segments :=
                Some [{| seg_start := 0%float; seg_end := 1%float;
                         seg_text := "  Hello there. " |}];
              resp_text := Some "  Hello there. "; resp_language := Some "en" |} in
  exists res,
    try_body (Ok r) None = Ok res
    /\ map text (segments res) = ["Hello there."]
    /\ Forall (fun s => strip (text s) = text s) (segments res).
Proof.
  cbv zeta. eexists. settle_left H. settle_left Ht.
  exact (output_text_is_stripped _ _ _ H).
Defined.

(* ================================================================== *)
(** * Properties of the title suggestions *)
(* ================================================================== *)

Module TitleFacts.
Import TitleService.

(** ** Stripping *)

Lemma lstrip_length (s : string) : (String.length (lstrip s) <= String.length s)%nat.
Proof.
  induction s as [|c s IH]; simpl; [lia|]. destruct (isspace c); simpl; lia.
Qed.

Lemma rstrip_length (s : string) : (String.length (rstrip s) <= String.length s)%nat.
Proof.
  induction s as [|c s IH]; simpl; [lia|].
  destruct (rstrip s); [destruct (isspace c)|]; simpl in *; lia.
Qed.

(** A non-empty text that stripping leaves alone starts with a character
    that is no whitespace, and is left alone by [rstrip]. *)
Lemma stripped_shape (t : string) :
  t <> EmptyString -> strip t = t ->
  exists c t', t = String c t' /\ isspace c = false /\ rstrip t = t.
Proof.
  destruct t as [|c t']; [contradiction|]. intros _ H. unfold strip in H.
  destruct (isspace c) eqn:E.
  - exfalso. simpl in H. rewrite E in H.
    pose proof (rstrip_length (lstrip t')) as H1.
    pose proof (lstrip_length t') as H2. rewrite H in H1. simpl in H1. lia.
  - exists c, t'. split; [reflexivity|]. split; [exact E|].
    simpl in H. rewrite E in H. exact H.
Qed.

Lemma rstrip_app_keep (a b : string) :
  b <> EmptyString -> rstrip b = b -> rstrip (a ++ b) = (a ++ b)%string.
Proof.
  intros Hb Hr. induction a as [|c a IH]; simpl; [exact Hr|].
  rewrite IH. destruct (a ++ b)%string eqn:E; [|reflexivity].
  destruct a; simpl in E; [contradiction | discriminate].
Qed.

Lemma has_char_lstrip (c : ascii) (s : string) :
  has_char c s = false -> has_char c (lstrip s) = false.
Proof.
  induction s as [|a s IH]; simpl; [reflexivity|].
  intros H. apply orb_false_elim in H. destruct H as [Ha Hs].
  destruct (isspace a); [auto|]. simpl. now rewrite Ha, Hs.
Qed.

Lemma has_char_rstrip (c : ascii) (s : string) :
  has_char c s = false -> has_char c (rstrip s) = false.
Proof.
  induction s as [|a s IH]; simpl; [reflexivity|].
  intros H. apply orb_false_elim in H. destruct H as [Ha Hs].
  specialize (IH Hs). destruct (rstrip s) as [|b r].
  - destruct (isspace a); simpl; [reflexivity|]. now rewrite Ha.
  - simpl in *. now rewrite Ha, IH.
Qed.

Lemma has_char_strip (c : ascii) (s : string) :
  has_char c s = false -> has_char c (strip s) = false.
Proof.
  intros H. unfold strip. now apply has_char_rstrip, has_char_lstrip.
Qed.

(** ** Splitting and joining *)

Lemma split_on_not_nil (sep : ascii) (s : string) : split_on sep s <> [].
Proof.
  destruct s as [|c s]; simpl; [discriminate|].
  destruct (Ascii.eqb c sep); [discriminate|].
  destruct (split_on sep s); discriminate.
Qed.

Lemma split_on_no_sep (sep : ascii) (s : string) :
  Forall (fun piece => has_char sep piece = false) (split_on sep s).
Proof.
  induction s as [|c s IH]; simpl.
  - constructor; [reflexivity | constructor].
  - destruct (Ascii.eqb c sep) eqn:E.
    + constructor; [reflexivity | exact IH].
    + destruct (split_on sep s) as [|piece pieces].
      * constructor; [simpl; now rewrite E | constructor].
      * inversion IH as [|? ? Hp Hps]; subst.
        constructor; [simpl; now rewrite E, Hp | exact Hps].
Qed.

Lemma split_on_whole (sep : ascii) (s : string) :
  has_char sep s = false -> split_on sep s = [s].
Proof.
  induction s as [|c s IH]; simpl; [reflexivity|].
  intros H. apply orb_false_elim in H. destruct H as [Hc Hs].
  rewrite Hc, (IH Hs). reflexivity.
Qed.

Lemma split_on_app (sep : ascii) (a b : string) :
  has_char sep a = false ->
  split_on sep (a ++ String sep b) = a :: split_on sep b.
Proof.
  induction a as [|c a IH]; simpl.
  - intros _. now rewrite Ascii.eqb_refl.
  - intros H. apply orb_false_elim in H. destruct H as [Hc Ha].
    rewrite Hc, (IH Ha). reflexivity.
Qed.

Lemma split_on_join (l : list string) :
  l <> [] ->
  Forall (fun t => has_char newline t = false) l ->
  split_on newline (join (String newline EmptyString) l) = l.
Proof.
  induction l as [|x l IH]; [contradiction|]. intros _ Hall.
  inversion Hall as [|? ? Hx Hl]; subst.
  destruct l as [|y l]; simpl.
  - now apply split_on_whole.
  - rewrite (split_on_app newline x _ Hx). f_equal.
    apply IH; [discriminate | exact Hl].
Qed.

Lemma join_clean_stripped (l : list string) :
  l <> [] -> Forall clean_title l ->
  join (String newline EmptyString) l <> EmptyString
  /\ strip (join (String newline EmptyString) l) = join (String newline EmptyString) l.
Proof.
  intros Hne Hall.
  assert (Hr : join (String newline "") l <> ""
               /\ rstrip (join (String newline "") l) = join (String newline "") l).
  { induction Hall as [|x l (Hx & Hsx & _) Hl IH]; [contradiction|].
    destruct (stripped_shape x Hx Hsx) as (c & x' & -> & _ & Hrx).
    destruct l as [|y l]; [split; [discriminate | exact Hrx]|].
    destruct IH as [IHne IHr]; [discriminate|].
    split; [discriminate|].
    change (join (String newline "") (String c x' :: y :: l))
      with (String c x' ++ (String newline "" ++ join (String newline "") (y :: l)))%string.
    apply rstrip_app_keep; [discriminate|].
    now apply (rstrip_app_keep (String newline "")). }
  destruct Hr as [Hnn Hr]. split; [exact Hnn|].
  unfold strip.
  destruct l as [|x l]; [contradiction|].
  inversion Hall as [|? ? (Hx & Hsx & _) _]; subst.
  destruct (stripped_shape x Hx Hsx) as (c & x' & -> & Hc & _).
  assert (Hl : lstrip (join (String newline "") (String c x' :: l))
               = join (String newline "") (String c x' :: l)).
  { destruct l as [|y l]; simpl; now rewrite Hc. }
  rewrite Hl. exact Hr.
Qed.

(** ** The titles *)

Lemma parse_titles_clean (content : string) :
  Forall clean_title (parse_titles content).
Proof.
  unfold parse_titles. apply Forall_forall. intros t Ht.
  apply in_map_iff in Ht. destruct Ht as (line & <- & Hline).
  apply filter_In in Hline. destruct Hline as [Hin Htruthy].
  pose proof (split_on_no_sep newline (strip content)) as Hsep.
  rewrite Forall_forall in Hsep. specialize (Hsep _ Hin).
  split; [|split].
  - intros E. rewrite E in Htruthy. discriminate.
  - apply strip_idempotent.
  - now apply has_char_strip.
Qed.

Lemma strip_blank (s : string) : all_space s = true -> strip s = EmptyString.
Proof.
  unfold strip. intros H.
  assert (Hl : lstrip s = EmptyString).
  { induction s as [|c s IH]; simpl in *; [reflexivity|].
    apply andb_prop in H. destruct H as [-> Hs]. auto. }
  now rewrite Hl.
Qed.

Lemma error_message_clean :
  Forall clean_title ["Error generating title suggestions"].
Proof.
  constructor; [|constructor]. split; [discriminate|]. split; reflexivity.
Qed.

(** X10: whatever the completion call gave, every suggestion the service
    returns is a non-empty string with no whitespace at either end and no
    newline inside; that holds of the message it returns after a failure
    too. *)
Theorem suggestions_are_clean (completion : outcome (list (option string))) :
  Forall clean_title (generate_title_suggestions completion).
Proof.
  unfold generate_title_suggestions, titles_body.
  destruct completion as [[|[content|] choices]|e];
    try exact error_message_clean.
  apply parse_titles_clean.
Qed.

(** X11: a completion of nothing but whitespace gives no suggestion at all:
    the service returns the empty list, not its error message. *)
Theorem blank_completion_gives_nothing (content : string)
    (choices : list (option string)) :
  all_space content = true ->
  generate_title_suggestions (Ok (Some content :: choices)) = [].
Proof.
  intros H. unfold generate_title_suggestions, titles_body, parse_titles.
  rewrite (strip_blank _ H). reflexivity.
Qed.

Lemma blank_completion_gives_nothing_witness :
  generate_title_suggestions
    (Ok [Some (String " " (String newline (String " " EmptyString)))])
  = [].
Proof.
  apply blank_completion_gives_nothing. reflexivity.
Defined.

(** X12: titles written one per line come back as they are: when every
    title is non-empty, has no whitespace at either end and no newline
    inside, parsing their lines joined by newlines gives the titles back,
    in order. *)
Theorem parse_titles_of_lines (titles : list string) :
  Forall clean_title titles ->
  parse_titles (join (String newline EmptyString) titles) = titles.
Proof.
  intros Hall. destruct titles as [|t titles]; [reflexivity|].
  unfold parse_titles.
  destruct (join_clean_stripped (t :: titles)) as [_ ->]; [discriminate | exact Hall|].
  rewrite split_on_join; [|discriminate|].
  - induction Hall as [|x l (Hx & Hsx & _) _ IH]; [reflexivity|].
    cbn [filter]. rewrite Hsx.
    assert (Htruthy : truthy x = true)
      by (destruct x; [contradiction | reflexivity]).
    rewrite Htruthy. cbn [map]. now rewrite Hsx, IH.
  - eapply Forall_impl; [|exact Hall]. intros x (_ & _ & Hx). exact Hx.
Qed.

Lemma parse_titles_of_lines_witness :
  parse_titles
    (join (String newline EmptyString)
       ["Ten Ways to Sleep"; "Why Cats Win"; "The Last Guide"])
  = ["Ten Ways to Sleep"; "Why Cats Win"; "The Last Guide"].
Proof.
  apply parse_titles_of_lines.
  repeat constructor; try discriminate.
Defined.

(** X13: with a content of at least 50 characters and the client built, the
    endpoint always returns a response, never an [HTTPException], and every
    suggestion in it is a clean title; when the completion call failed, the
    response holds the error message as its one suggestion. *)
Theorem title_endpoint_returns (content : string)
    (completion : outcome (list (option string))) :
  (50 <= String.length content)%nat ->
  exists titles,
    TitleEndpoint.generate_title_suggestions content (Ok tt) completion
    = Returned {| suggestions := titles |}
    /\ Forall clean_title titles
    /\ (forall e, completion = Raise e ->
                  titles = ["Error generating title suggestions"]).
Proof.
  intros Hlen. exists (generate_title_suggestions completion).
  unfold TitleEndpoint.generate_title_suggestions.
  apply Nat.ltb_ge in Hlen. rewrite Hlen. simpl.
  split; [reflexivity|]. split; [|intros e ->; reflexivity].
  unfold generate_title_suggestions, titles_body.
  destruct completion as [[|[answer|] choices]|e];
    try exact error_message_clean.
  apply parse_titles_clean.
Qed.

Lemma title_endpoint_returns_witness :
  exists titles,
    TitleEndpoint.generate_title_suggestions
      "A blog post about the sleeping habits of cats and what they teach us."
      (Ok tt) (Raise (Upstream "rate limit"))
    = Returned {| suggestions := titles |}
    /\ Forall clean_title titles
    /\ (forall e, (Raise (Upstream "rate limit") : outcome (list (option string)))
                  = Raise e ->
                  titles = ["Error generating title suggestions"]).
Proof.
  apply title_endpoint_returns. simpl. lia.
Defined.

End TitleFacts.

(* ================================================================== *)
(** * Properties of the transcription endpoint *)
(* ================================================================== *)

Module EndpointFacts.
Import FileUtils TranscriptionEndpoint.

(** ** The disk *)

Lemma path_exists_In (fs : FS) (path : string) :
  path_exists fs path = true <-> In path fs.
Proof.
  unfold path_exists. rewrite existsb_exists. split.
  - intros (p & Hp & E). apply String.eqb_eq in E. now subst.
  - intros H. exists path. split; [exact H | apply String.eqb_refl].
Qed.

Lemma path_exists_create (fs : FS) (path : string) :
  path_exists (create fs path) path = true.
Proof.
  unfold create. destruct (path_exists fs path) eqn:E; [exact E|].
  apply path_exists_In. left. reflexivity.
Qed.

Lemma unlink_create (fs : FS) (path : string) :
  unlink (create fs path) path = unlink fs path.
Proof.
  unfold create. destruct (path_exists fs path); [reflexivity|].
  unfold unlink. simpl. now rewrite String.eqb_refl.
Qed.

Lemma path_exists_unlink (fs : FS) (path p : string) :
  path_exists (unlink fs path) p
  = if (p =? path)%string then false else path_exists fs p.
Proof.
  destruct (String.eqb_spec p path) as [->|Hne].
  - destruct (path_exists (unlink fs path) path) eqn:E; [|reflexivity].
    apply path_exists_In in E. unfold unlink in E. apply filter_In in E.
    destruct E as [_ E]. rewrite String.eqb_refl in E. discriminate.
  - destruct (path_exists fs p) eqn:E.
    + apply path_exists_In. unfold unlink. apply filter_In.
      split; [now apply path_exists_In|].
      apply negb_true_iff. now apply String.eqb_neq.
    + destruct (path_exists (unlink fs path) p) eqn:E'; [|reflexivity].
      apply path_exists_In in E'. unfold unlink in E'. apply filter_In in E'.
      destruct E' as [E' _]. apply path_exists_In in E'. congruence.
Qed.

(** ** The size check *)

Lemma check_size_from (chunks : list string) (n0 : N) :
  (n0 <= Config.MAX_UPLOAD_SIZE)%N ->
  check_size n0 chunks
  = if (Config.MAX_UPLOAD_SIZE <? n0 + total_size chunks)%N
    then HTTPException 413 "File too large. Maximum size: 25.0 MB"
    else Returned (n0 + total_size chunks)%N.
Proof.
  revert n0; induction chunks as [|chunk chunks IH]; intros n0 Hn0;
    cbn [check_size total_size fold_right].
  - rewrite N.add_0_r. apply N.ltb_ge in Hn0. now rewrite Hn0.
  - fold (total_size chunks).
    destruct (Config.MAX_UPLOAD_SIZE <? n0 + len chunk)%N eqn:E.
    + apply N.ltb_lt in E.
      assert (Hlt : (Config.MAX_UPLOAD_SIZE <? n0 + (len chunk + total_size chunks))%N
                    = true) by (apply N.ltb_lt; lia).
      now rewrite Hlt.
    + apply N.ltb_ge in E. rewrite (IH _ E). now rewrite N.add_assoc.
Qed.

Lemma check_size_accepts (chunks : list string) :
  (total_size chunks <= 26214400)%N ->
  check_size 0 chunks = Returned (total_size chunks).
Proof.
  intros H. rewrite check_size_from by (vm_compute; discriminate).
  rewrite N.add_0_l. change Config.MAX_UPLOAD_SIZE with 26214400%N.
  apply N.ltb_ge in H. now rewrite H.
Qed.

Lemma check_size_rejects (chunks : list string) :
  (26214400 < total_size chunks)%N ->
  check_size 0 chunks = HTTPException 413 "File too large. Maximum size: 25.0 MB".
Proof.
  intros H. rewrite check_size_from by (vm_compute; discriminate).
  rewrite N.add_0_l. change Config.MAX_UPLOAD_SIZE with 26214400%N.
  apply N.ltb_lt in H. now rewrite H.
Qed.

(** X14: the size check lets an upload through exactly when the lengths of
    its chunks add up to at most 26214400 bytes (25 MiB), and then finds
    that sum; one byte more is answered with 413. *)
Theorem size_check_is_total_size (chunks : list string) :
  check_size 0 chunks
  = if (total_size chunks <=? 26214400)%N
    then Returned (total_size chunks)
    else HTTPException 413 "File too large. Maximum size: 25.0 MB".
Proof.
  rewrite check_size_from by (vm_compute; discriminate).
  rewrite N.add_0_l.
  change Config.MAX_UPLOAD_SIZE with 26214400%N.
  rewrite N.ltb_antisym. now destruct (total_size chunks <=? 26214400)%N.
Qed.

Section Paths.
Variable upload_path : string -> string.

(** X15: an upload whose content type is missing or not one of the four
    allowed ones is answered with 400, whatever its size, and one of an
    allowed type whose size is over the limit with 413; in both cases
    nothing is written to the disk. *)
Theorem rejected_upload_leaves_disk (io : IO) (fs : FS) (file : UploadFile)
    (client : outcome unit) (asr : outcome WhisperResponse)
    (pipeline : option (outcome (list Turn))) :
  allowed (content_type file) = false
  \/ (26214400 < total_size (chunks file))%N ->
  exists status_code detail,
    transcribe_audio upload_path io fs file client asr pipeline
    = (fs, Ok (HTTPException status_code detail))
    /\ (allowed (content_type file) = false -> status_code = 400%nat)
    /\ (allowed (content_type file) = true -> status_code = 413%nat).
Proof.
  intros H. unfold transcribe_audio.
  destruct (allowed (content_type file)) eqn:Ea; simpl.
  - destruct H as [H|H]; [discriminate|].
    rewrite (check_size_rejects _ H).
    do 2 eexists. split; [reflexivity|]. split; [discriminate | reflexivity].
  - do 2 eexists. split; [reflexivity|]. split; [reflexivity | discriminate].
Qed.

(** X16: when the upload is accepted and saving and removing it go through,
    the disk after the request is the disk before it without the
    destination path: the upload is gone whether the service returned or
    raised, any file that was at that path before is gone too, and every
    other file is as it was. *)
Theorem accepted_upload_is_removed (io : IO) (fs : FS) (file : UploadFile)
    (client : outcome unit) (asr : outcome WhisperResponse)
    (pipeline : option (outcome (list Turn))) :
  allowed (content_type file) = true ->
  (total_size (chunks file) <= 26214400)%N ->
  io_makedirs io = Ok tt -> io_open io = Ok tt -> io_copy io = Ok tt ->
  io_remove io = Ok tt ->
  let fs' := fst (transcribe_audio upload_path io fs file client asr pipeline) in
  fs' = unlink fs (upload_path (filename file))
  /\ path_exists fs' (upload_path (filename file)) = false
  /\ (forall p, p <> upload_path (filename file) ->
                path_exists fs' p = path_exists fs p).
Proof.
  intros Ha Hsize Hmk Hop Hcp Hrm.
  assert (Hfs : fst (transcribe_audio upload_path io fs file client asr pipeline)
                = unlink fs (upload_path (filename file))).
  { unfold transcribe_audio. rewrite Ha. cbn [negb].
    rewrite (check_size_accepts _ Hsize).
    unfold save_upload_file. rewrite Hmk, Hop, Hcp.
    unfold remove_file. rewrite path_exists_create, Hrm. cbn [fst].
    apply unlink_create. }
  cbv zeta. rewrite Hfs. split; [reflexivity|]. split.
  - rewrite path_exists_unlink. now rewrite String.eqb_refl.
  - intros p Hp. rewrite path_exists_unlink.
    now rewrite (proj2 (String.eqb_neq _ _) Hp).
Qed.

(** X17: when the upload is accepted and opening the destination goes
    through but copying raises, the endpoint answers 500 and removes
    nothing: the file it created stays on the disk. *)
Theorem failed_copy_leaves_file (io : IO) (fs : FS) (file : UploadFile)
    (client : outcome unit) (asr : outcome WhisperResponse)
    (pipeline : option (outcome (list Turn))) (e : exn) :
  allowed (content_type file) = true ->
  (total_size (chunks file) <= 26214400)%N ->
  io_makedirs io = Ok tt -> io_open io = Ok tt -> io_copy io = Raise e ->
  transcribe_audio upload_path io fs file client asr pipeline
  = (create fs (upload_path (filename file)),
     Ok (HTTPException 500 ("Error processing audio: " ++ str_of_exn e)%string))
  /\ path_exists (create fs (upload_path (filename file)))
       (upload_path (filename file)) = true.
Proof.
  intros Ha Hsize Hmk Hop Hcp. split; [|apply path_exists_create].
  unfold transcribe_audio. rewrite Ha. cbn [negb].
  rewrite (check_size_accepts _ Hsize).
  unfold save_upload_file. rewrite Hmk, Hop, Hcp. reflexivity.
Qed.

(** X18: when the upload is accepted, saving and removing it go through and
    the client is built, the endpoint answers with what the service
    returns and never with 500: a transcription or diarization call that
    raises is answered with the response whose one segment has the speaker
    "ERROR". *)
Theorem transcription_failure_is_returned (io : IO) (fs : FS) (file : UploadFile)
    (asr : outcome WhisperResponse) (pipeline : option (outcome (list Turn))) :
  allowed (content_type file) = true ->
  (total_size (chunks file) <= 26214400)%N ->
  io_makedirs io = Ok tt -> io_open io = Ok tt -> io_copy io = Ok tt ->
  io_remove io = Ok tt ->
  snd (transcribe_audio upload_path io fs file (Ok tt) asr pipeline)
  = Ok (Returned (transcribe_audio_with_diarization asr pipeline))
  /\ (forall e,
        asr = Raise e \/ (exists r, asr = Ok r /\ pipeline = Some (Raise e)) ->
        snd (transcribe_audio upload_path io fs file (Ok tt) asr pipeline)
        = Ok (Returned (error_response e))).
Proof.
  intros Ha Hsize Hmk Hop Hcp Hrm.
  assert (H : snd (transcribe_audio upload_path io fs file (Ok tt) asr pipeline)
              = Ok (Returned (transcribe_audio_with_diarization asr pipeline))).
  { unfold transcribe_audio. rewrite Ha. cbn [negb].
    rewrite (check_size_accepts _ Hsize).
    unfold save_upload_file. rewrite Hmk, Hop, Hcp.
    unfold remove_file. rewrite path_exists_create, Hrm. reflexivity. }
  split; [exact H|].
  intros e [->|(r & -> & ->)]; rewrite H; reflexivity.
Qed.
End Paths.

Lemma rejected_upload_leaves_disk_witness :
  exists status_code detail,
    transcribe_audio sample_path all_fine ["uploads/old.wav"]
      {| content_type := Some "video/mp4"; filename := "clip.mp4"; chunks := ["abc"] |}
      (Ok tt) (Raise (Upstream "never called")) None
    = (["uploads/old.wav"], Ok (HTTPException status_code detail))
    /\ status_code = 400%nat.
Proof.
  destruct (rejected_upload_leaves_disk sample_path all_fine ["uploads/old.wav"]
              {| content_type := Some "video/mp4"; filename := "clip.mp4";
                 chunks := ["abc"] |}
              (Ok tt) (Raise (Upstream "never called")) None (or_introl eq_refl))
    as (status_code & detail & Heq & H400 & _).
  exists status_code, detail. split; [exact Heq | exact (H400 eq_refl)].
Defined.

Lemma accepted_upload_is_removed_witness :
  let fs' := fst (transcribe_audio sample_path all_fine
                    ["uploads/old.wav"; "uploads/talk.wav"] sample_upload
                    (Ok tt) (Raise (Upstream "timeout")) None) in
  fs' = ["uploads/old.wav"]
  /\ path_exists fs' "uploads/talk.wav" = false.
Proof.
  destruct (accepted_upload_is_removed sample_path all_fine
              ["uploads/old.wav"; "uploads/talk.wav"] sample_upload
              (Ok tt) (Raise (Upstream "timeout")) None
              eq_refl) as (Hfs & Hgone & _); try reflexivity.
  - vm_compute. discriminate.
  - cbv zeta. split; [exact Hfs | exact Hgone].
Defined.

Lemma failed_copy_leaves_file_witness :
  transcribe_audio sample_path disk_full [] sample_upload (Ok tt)
    (Raise (Upstream "never called")) None
  = (["uploads/talk.wav"],
     Ok (HTTPException 500 "Error processing audio: No space left on device")).
Proof.
  refine (proj1 (failed_copy_leaves_file sample_path disk_full [] sample_upload
                   (Ok tt) (Raise (Upstream "never called")) None
                   (Upstream "No space left on device")
                   eq_refl _ eq_refl eq_refl eq_refl)).
  vm_compute. discriminate.
Defined.

Lemma transcription_failure_is_returned_witness :
  snd (transcribe_audio sample_path all_fine [] sample_upload (Ok tt)
         (Raise (Upstream "timeout")) None)
  = Ok (Returned (error_response (Upstream "timeout"))).
Proof.
  refine (proj2 (transcription_failure_is_returned sample_path all_fine []
                   sample_upload (Raise (Upstream "timeout")) None
                   eq_refl _ eq_refl eq_refl eq_refl eq_refl)
            (Upstream "timeout") (or_introl eq_refl)).
  vm_compute. discriminate.
Defined.

End EndpointFacts.

(* ================================================================== *)
(** * The order of the labels on equal first times *)
(* ================================================================== *)

Module TieFacts.

Lemma before_cons {A : Type} (a b x : A) (l : list A) :
  before a b l -> before a b (x :: l).
Proof.
  intros (l1 & l2 & l3 & ->). exists (x :: l1), l2, l3. reflexivity.
Qed.

Lemma before_head {A : Type} (a b : A) (l : list A) :
  In b l -> before a b (a :: l).
Proof.
  intros H. apply in_split in H. destruct H as (l2 & l3 & ->).
  exists [], l2, l3. reflexivity.
Qed.

Lemma before_cons_inv {A : Type} (a b x : A) (l : list A) :
  before a b (x :: l) -> (a = x /\ In b l) \/ before a b l.
Proof.
  intros (l1 & l2 & l3 & H). destruct l1 as [|y l1]; simpl in H.
  - injection H as <- ->. left. split; [reflexivity|].
    apply in_or_app. right. left. reflexivity.
  - injection H as <- ->. right. exists l1, l2, l3. reflexivity.
Qed.

Lemma before_indices {A : Type} (a b : A) (l : list A) :
  before a b l ->
  exists i j, (i < j)%nat /\ nth_error l i = Some a /\ nth_error l j = Some b.
Proof.
  intros (l1 & l2 & l3 & ->).
  exists (List.length l1), (List.length l1 + S (List.length l2))%nat.
  split; [lia|]. split.
  - now rewrite nth_error_app2, Nat.sub_diag by lia.
  - rewrite nth_error_app2 by lia.
    replace (List.length l1 + S (List.length l2) - List.length l1)%nat
      with (S (List.length l2)) by lia.
    simpl. now rewrite nth_error_app2, Nat.sub_diag by lia.
Qed.

Section Stable.
Context {A : Type} (key : A -> float).

Lemma insert_sorted_In (x y : A) (l : list A) :
  In y (insert_sorted key x l) <-> y = x \/ In y l.
Proof.
  split.
  - intros H. apply (Permutation_in _ (insert_sorted_perm key x l)) in H.
    destruct H as [H|H]; auto.
  - intros H. apply (Permutation_in _ (Permutation_sym (insert_sorted_perm key x l))).
    destruct H as [H|H]; [left; now symmetry | right; exact H].
Qed.

(** Inserting keeps the order of what is there. *)
Lemma insert_keeps_before (x a b : A) (l : list A) :
  before a b l -> before a b (insert_sorted key x l).
Proof.
  induction l as [|y l IH]; intros H.
  - destruct H as (l1 & l2 & l3 & H). destruct l1; discriminate.
  - simpl. destruct (key x <? key y)%float; [now apply before_cons|].
    apply before_cons_inv in H. destruct H as [[-> Hb]|H].
    + apply before_head. apply insert_sorted_In. auto.
    + apply before_cons. auto.
Qed.

(** What is inserted goes after everything that is not greater. *)
Lemma insert_goes_after (x a : A) (l : list A) :
  StronglySorted (not_after key) l ->
  In a l -> is_nan (key a) = false -> (key x <? key a)%float = false ->
  before a x (insert_sorted key x l).
Proof.
  intros Hs; induction Hs as [|y l Hl IH Hy]; intros Ha Hnan Hxa; [destruct Ha|].
  simpl. destruct (key x <? key y)%float eqn:E.
  - exfalso. destruct Ha as [->|Ha]; [congruence|].
    rewrite Forall_forall in Hy. specialize (Hy a Ha). unfold not_after in Hy.
    pose proof (float_ltb_between _ _ _ E Hnan) as Hb.
    rewrite Hxa, Hy in Hb. discriminate.
  - destruct Ha as [->|Ha].
    + apply before_head. apply insert_sorted_In. auto.
    + apply before_cons. auto.
Qed.

(** The sort is stable: what stands before [b] and is not greater than [b]
    stands before [b] afterwards. *)
Lemma sorted_stable (a b : A) (l : list A) :
  is_nan (key a) = false -> (key b <? key a)%float = false ->
  before a b l -> before a b (sorted key l).
Proof.
  intros Hnan Hba. unfold sorted.
  enough (H : forall rest acc,
            StronglySorted (not_after key) acc ->
            before a b acc \/ (In a acc /\ In b rest) \/ before a b rest ->
            before a b (fold_left (fun acc x => insert_sorted key x acc) rest acc)).
  { intros Hl. apply H; [constructor | auto]. }
  induction rest as [|x rest IH]; intros acc Hacc Hcase; simpl.
  - destruct Hcase as [H|[[_ []]|(l1 & l2 & l3 & H)]]; [exact H|].
    destruct l1; discriminate.
  - apply IH; [now apply insert_sorted_sorted|].
    destruct Hcase as [H|[[Ha Hb]|H]].
    + left. now apply insert_keeps_before.
    + destruct Hb as [->|Hb].
      * left. now apply insert_goes_after.
      * right. left. split; [|exact Hb]. apply insert_sorted_In. auto.
    + apply before_cons_inv in H. destruct H as [[-> Hb]|H].
      * right. left. split; [|exact Hb]. apply insert_sorted_In. auto.
      * right. right. exact H.
Qed.
End Stable.

(** The statistics after a turn of a new speaker hold that speaker last. *)
Lemma keys_after_new_speaker (d1 d2 : list Turn) (t : Turn) (m : SpeakerMap)
    (sstats : SpeakerStats) :
  build_speaker_maps (d1 ++ t :: d2) = Ok (m, sstats) ->
  ~ In (turn_speaker t) (map turn_speaker d1) ->
  exists k1 k2,
    keys sstats = k1 ++ turn_speaker t :: k2
    /\ (forall spk, In spk (map turn_speaker d1) -> In spk k1).
Proof.
  unfold build_speaker_maps. rewrite for_each_app. intros H Hnew.
  inv_bind H. destruct a as [m1 s1]. cbn [for_each] in H. inv_bind H.
  destruct a as [m2 s2].
  pose proof (build_describes d1 (m1, s1) Hstep) as Hd1.
  assert (Hmem : mem String.eqb s1 (turn_speaker t) = false).
  { unfold mem. destruct (get String.eqb s1 (turn_speaker t)) eqn:E; [|reflexivity].
    exfalso. apply Hnew. apply (stats_keys_iff d1 (m1, s1) _ Hd1).
    now apply (get_Some_In_keys _ str_eqb_eq) in E. }
  apply turn_step_keys in Hstep0. rewrite Hmem in Hstep0.
  assert (Hinv : forall s a s',
            (exists k2, keys (snd s) = keys s1 ++ turn_speaker t :: k2) ->
            turn_step s a = Ok s' ->
            exists k2, keys (snd s') = keys s1 ++ turn_speaker t :: k2).
  { intros [ma sa] a [mb sb] (k2 & Hk) Hab. apply turn_step_keys in Hab.
    simpl in *. rewrite Hab, Hk, <- app_assoc. simpl. eauto. }
  destruct (for_each_invariant turn_step _ Hinv d2 (m2, s2) (m, sstats)) as (k2 & Hk);
    [exists []; exact Hstep0 | exact H |].
  exists (keys s1), k2. split; [exact Hk|].
  intros spk Hspk. now apply (stats_keys_iff d1 (m1, s1) _ Hd1).
Qed.

Lemma before_of_keys (sstats : SpeakerStats) (k1 k2 : list string) (A B : string)
    (sA sB : Stats) :
  keys sstats = k1 ++ B :: k2 -> In A k1 ->
  stats_get sstats A = Some sA -> stats_get sstats B = Some sB ->
  NoDup (keys sstats) ->
  before (A, sA) (B, sB) sstats.
Proof.
  intros Hkeys HA HgA HgB Hnd. unfold keys in Hkeys.
  apply map_eq_app in Hkeys. destruct Hkeys as (s1 & s2 & -> & Hk1 & Hk2).
  apply map_eq_cons in Hk2. destruct Hk2 as ([B' sB'] & s3 & -> & HB & Hk3).
  simpl in HB. subst B'.
  assert (HsB : sB' = sB).
  { assert (Hin : In (B, sB') (s1 ++ (B, sB') :: s3))
      by (apply in_or_app; right; left; reflexivity).
    apply (In_get_NoDup _ str_eqb_eq _ _ _ Hnd) in Hin.
    unfold stats_get in HgB. congruence. }
  subst sB'. subst k1. apply in_map_iff in HA. destruct HA as ([A' sA'] & HA' & HinA).
  simpl in HA'. subst A'.
  assert (HsA : sA' = sA).
  { assert (Hin : In (A, sA') (s1 ++ (B, sB) :: s3))
      by (apply in_or_app; left; exact HinA).
    apply (In_get_NoDup _ str_eqb_eq _ _ _ Hnd) in Hin.
    unfold stats_get in HgA. congruence. }
  subst sA'. apply in_split in HinA. destruct HinA as (l1 & l2 & ->).
  exists l1, l2, s3. now rewrite <- app_assoc.
Qed.

(** X19: a speaker the diarization yields before another gets the smaller
    label number unless the first turn of the other starts strictly
    earlier; speakers whose first turns start at the same time are numbered
    in the order in which the diarization first yields them. *)
Theorem earlier_speaker_wins_ties (d1 d2 : list Turn) (t : Turn) (m : SpeakerMap)
    (sstats : SpeakerStats) (A : string) (tA : Turn) (restA : list Turn) :
  build_speaker_maps (d1 ++ t :: d2) = Ok (m, sstats) ->
  ~ In (turn_speaker t) (map turn_speaker d1) ->
  turns_of A d1 = tA :: restA ->
  (turn_start t <? turn_start tA)%float = false ->
  exists nA nB,
    get String.eqb (speaker_mapping sstats) A = Some (speaker_label nA)
    /\ get String.eqb (speaker_mapping sstats) (turn_speaker t) = Some (speaker_label nB)
    /\ (1 <= nA < nB)%nat.
Proof.
  intros Hb Hnew HA Hnot.
  destruct (keys_after_new_speaker _ _ _ _ _ Hb Hnew) as (k1 & k2 & Hkeys & Hk1).
  pose proof (first_times_not_nan _ _ _ Hb) as Hnan.
  pose proof (build_describes _ _ Hb) as (Hstats & Hnd & _). simpl in Hstats, Hnd.
  assert (HinA : In A (map turn_speaker d1)).
  { assert (Hin : In tA (turns_of A d1)) by (rewrite HA; left; reflexivity).
    unfold turns_of in Hin. apply filter_In in Hin. destruct Hin as [Hin E].
    apply String.eqb_eq in E. subst A. now apply in_map. }
  assert (HtA : turns_of A (d1 ++ t :: d2) = tA :: restA ++ turns_of A (t :: d2)).
  { unfold turns_of. rewrite filter_app. fold (turns_of A d1). now rewrite HA. }
  assert (HtB : exists restB, turns_of (turn_speaker t) (d1 ++ t :: d2) = t :: restB).
  { unfold turns_of. rewrite filter_app.
    assert (Hnone : filter (fun u => (turn_speaker u =? turn_speaker t)%string) d1 = []).
    { destruct (filter _ d1) as [|u us] eqn:E; [reflexivity|]. exfalso.
      assert (Hu : In u (filter (fun u => (turn_speaker u =? turn_speaker t)%string) d1))
        by (rewrite E; left; reflexivity).
      apply filter_In in Hu. destruct Hu as [Hu Eu]. apply String.eqb_eq in Eu.
      apply Hnew. rewrite <- Eu. now apply in_map. }
    rewrite Hnone. simpl. rewrite String.eqb_refl. eauto. }
  destruct HtB as (restB & HtB).
  pose proof (Hstats A) as HsA. pose proof (Hstats (turn_speaker t)) as HsB.
  unfold stats_of in HsA, HsB. rewrite HtA in HsA. rewrite HtB in HsB.
  set (sA := {| first_time := turn_start tA;
                total_time := speaking_time (tA :: restA ++ turns_of A (t :: d2)) |}) in *.
  set (sB := {| first_time := turn_start t;
                total_time := speaking_time (t :: restB) |}) in *.
  assert (Hbefore : before (A, sA) (turn_speaker t, sB) sstats).
  { apply (before_of_keys sstats k1 k2); auto. }
  assert (HnanA : is_nan (first_time sA) = false).
  { rewrite Forall_forall in Hnan. apply Hnan.
    apply (get_In_values _ _ _ _ HsA). }
  apply (sorted_stable (fun x : string * Stats => first_time (snd x))) in Hbefore;
    [|exact HnanA|exact Hnot].
  apply before_indices in Hbefore. destruct Hbefore as (i & j & Hij & Hi & Hj).
  exists (i + 1)%nat, (j + 1)%nat.
  split; [now apply speaker_mapping_nth with (st := sA)|].
  split; [now apply speaker_mapping_nth with (st := sB) | lia].
Qed.

Lemma earlier_speaker_wins_ties_witness :
  let tA := {| turn_start := 1%float; turn_end := 1.5%float; turn_speaker := "zed" |} in
  let t := {| turn_start := 1%float; turn_end := 1.25%float; turn_speaker := "amy" |} in
  exists m sstats nA nB,
    build_speaker_maps ([tA] ++ t :: []) = Ok (m, sstats)
    /\ get String.eqb (speaker_mapping sstats) "zed" = Some (speaker_label nA)
    /\ get String.eqb (speaker_mapping sstats) "amy" = Some (speaker_label nB)
    /\ (1 <= nA < nB)%nat.
Proof.
  cbv zeta. do 2 eexists.
  assert (Hb : build_speaker_maps
                 ([{| turn_start := 1%float; turn_end := 1.5%float;
                      turn_speaker := "zed" |}]
                  ++ {| turn_start := 1%float; turn_end := 1.25%float;
                        turn_speaker := "amy" |} :: [])
               = Ok (?[m], ?[s])) by (vm_compute; reflexivity).
  destruct (earlier_speaker_wins_ties
              [{| turn_start := 1%float; turn_end := 1.5%float; turn_speaker := "zed" |}]
              []
              {| turn_start := 1%float; turn_end := 1.25%float; turn_speaker := "amy" |}
              _ _ "zed"
              {| turn_start := 1%float; turn_end := 1.5%float; turn_speaker := "zed" |}
              [] Hb) as (nA & nB & H);
    [ intros [H|[]]; discriminate H | reflexivity | reflexivity | ].
  exists nA, nB. split; [exact Hb | exact H].
Defined.

End TieFacts.
